(** * unicreds: a shallow embedding of the credential store

    The development follows the package file of the repository
    (types [Credential], [DecryptedCredential], the sort helpers
    [ByVersion] and [ByName], and the operations [GetSecret],
    [GetHighestVersion], [ListSecrets], [GetAllSecrets], [PutSecret],
    [DeleteSecret], [ResolveVersion], [decryptCredential],
    [decodeCredential], [filterLatest], [Setup], [waitForTable],
    [getRegion]) and the commands of [main] that compose them.

    - Go [string] is [string]; [[]byte] is [list byte]; Go [int] is a
      64-bit integer carried in [Z] with its wrap-around written out.
    - A Go function returning [(T, error)] returns [Res T]; a run-time
      panic (slice bounds) is the third outcome [Panic].
    - The DynamoDB table is an explicit state ([World]); operations that
      write return the new state.
    - The key-management service, the cipher, the MAC and the attribute
      codec are interfaces (type classes); Go's [sort.Sort] and map
      iteration order are specified only up to their contract and are an
      interface too, as are the table requests of [Setup] and the
      channel each [select] of [waitForTable] receives from. *)

From Stdlib Require Import ZArith NArith Lia Bool Ascii String DecimalString.
From Stdlib.Strings Require Import Byte.
From stdpp Require Import base option list sorting strings gmap.

Local Open Scope string_scope.
Local Open Scope Z_scope.
Local Open Scope list_scope.

(** ** Errors and results *)

Module Go.

(** The error values the package can return: its three sentinel errors,
    an [awserr.Error] with its [Code()], the error of
    [base64.StdEncoding.DecodeString], the two errors of
    [strconv.Atoi], and any other error value. *)
Inductive error : Type :=
| ErrSecretNotFound
| ErrHmacValidationFailed
| ErrTimeout
| AwsErr (code : string)
| CorruptInputError
| ErrSyntax
| ErrRange
| OtherError (msg : string).

#[global] Instance error_eq_dec : EqDecision error.
Proof. solve_decision. Defined.

Inductive Res (A : Type) : Type :=
| Ok (a : A)
| Err (e : error)
| Panic.
Arguments Ok {A} a.
Arguments Err {A} e.
Arguments Panic {A}.

#[global] Instance Res_eq_dec {A : Type} `{EqDecision A} : EqDecision (Res A).
Proof. solve_decision. Defined.

#[global] Instance Res_ret : MRet Res := fun A a => Ok a.
#[global] Instance Res_bind : MBind Res := fun A B f m =>
  match m with
  | Ok a => f a
  | Err e => Err e
  | Panic => Panic
  end.

#[global] Instance Res_fmap : FMap Res := fun A B f m =>
  match m with
  | Ok a => Ok (f a)
  | Err e => Err e
  | Panic => Panic
  end.

(** [for _, x := range xs { y, err := f(x); if err != nil { return nil, err };
    results = append(results, y) }] *)
Fixpoint forM {A B : Type} (f : A -> Res B) (xs : list A) : Res (list B) :=
  match xs with
  | [] => Ok []
  | x :: xs' => y ← f x; ys ← forM f xs'; Ok (y :: ys)
  end.

(** *** Go [int] *)

Definition maxInt : Z := 2 ^ 63 - 1.
Definition minInt : Z := - 2 ^ 63.
Definition wrap (z : Z) : Z := (z + 2 ^ 63) mod 2 ^ 64 - 2 ^ 63.

(** *** [strconv.Atoi] and [strconv.Itoa] *)

Definition digit_of (c : ascii) : option Z :=
  let n := Z.of_N (N_of_ascii c) in
  if (48 <=? n) && (n <=? 57) then Some (n - 48) else None.

(** [strconv.ParseUint(s, 10, 64)] on the bytes after the sign, from
    the value [n] read so far. The bytes are read from the left: a byte
    that is no digit ends the reading with [ErrSyntax] and the value 0,
    a value that leaves the 64 bits ends it with [ErrRange] and the value
    [maxUint64], whichever comes first. *)
Definition maxUint64 : Z := 2 ^ 64 - 1.
Definition cutoff : Z := maxUint64 / 10 + 1.

Fixpoint ParseUint (n : Z) (s : string) : Z * option error :=
  match s with
  | EmptyString => (n, None)
  | String c s' =>
      match digit_of c with
      | None => (0, Some ErrSyntax)
      | Some d =>
          if cutoff <=? n then (maxUint64, Some ErrRange)
          else
            let n1 := 10 * n + d in
            if maxUint64 <? n1 then (maxUint64, Some ErrRange)
            else ParseUint n1 s'
      end
  end.

(** [Atoi] returns the value together with the error, as in Go
    ([strconv.ParseInt(s, 10, 0)] on a 64-bit [int]): [0] with
    [ErrSyntax]; the nearest bound with [ErrRange], also when the digits
    that leave the range are followed by a byte that is no digit. *)
Definition Atoi (s : string) : Z * option error :=
  match s with
  | EmptyString => (0, Some ErrSyntax)
  | String c s' =>
      let '(neg, ds) :=
        if Ascii.eqb c "-" then (true, s')
        else if Ascii.eqb c "+" then (false, s')
        else (false, s) in
      match ds with
      | EmptyString => (0, Some ErrSyntax)
      | _ =>
          match ParseUint 0 ds with
          | (_, Some ErrSyntax) => (0, Some ErrSyntax)
          | (un, _) =>
              if negb neg && (2 ^ 63 <=? un) then (maxInt, Some ErrRange)
              else if neg && (2 ^ 63 <? un) then (minInt, Some ErrRange)
              else (if neg : bool then - un else un, None)
          end
      end
  end.

Definition Itoa (z : Z) : string := NilZero.string_of_int (Z.to_int z).

(** *** [string(b)] and [[]byte(s)] *)

Definition bytes := list byte.
Definition bytes_of_string (s : string) : bytes := list_byte_of_string s.
Definition string_of_bytes (b : bytes) : string := string_of_list_byte b.

(** [b[:n]] and [b[n:]], as the package uses them (both on the same slice,
    one after the other): a bound [n] beyond the length panics. *)
Definition slice_to (n : nat) (b : bytes) : Res bytes :=
  if decide (n ≤ length b)%nat then Ok (take n b) else Panic.
Definition slice_from (n : nat) (b : bytes) : Res bytes :=
  if decide (n ≤ length b)%nat then Ok (drop n b) else Panic.

End Go.
Export Go.

(** ** [encoding/base64]: [StdEncoding]

    [EncodeToString] and [DecodeString] of Go's standard (padded,
    non-strict) encoding. The decoder skips carriage returns and line
    feeds wherever they occur, requires padding, refuses anything after
    it, and does not look at the unused low bits of the last sextet. *)

Module base64.

Definition encodeStd : string :=
  "ABCDEFGHIJKLMNOPQRSTUVWXYZabcdefghijklmnopqrstuvwxyz0123456789+/".

Definition padChar : ascii := "=".

Definition enc_char (n : N) : ascii :=
  match String.get (N.to_nat n) encodeStd with
  | Some c => c
  | None => padChar
  end.

Fixpoint index_from (i : N) (c : ascii) (s : string) : option N :=
  match s with
  | EmptyString => None
  | String d s' => if Ascii.eqb c d then Some i else index_from (N.succ i) c s'
  end.

(** [decodeMap]: the sextet of an alphabet character, nothing otherwise. *)
Definition dec_char (c : ascii) : option N := index_from 0%N c encodeStd.

Definition byte_of_N (n : N) : byte :=
  match Byte.of_N (n mod 256)%N with
  | Some b => b
  | None => x00
  end.

Fixpoint EncodeToString (src : bytes) : string :=
  match src with
  | [] => EmptyString
  | [a] =>
      let a := Byte.to_N a in
      String (enc_char (a / 4)%N)
        (String (enc_char ((a mod 4) * 16)%N)
           (String padChar (String padChar EmptyString)))
  | [a; b] =>
      let a := Byte.to_N a in
      let b := Byte.to_N b in
      String (enc_char (a / 4)%N)
        (String (enc_char ((a mod 4) * 16 + b / 16)%N)
           (String (enc_char ((b mod 16) * 4)%N)
              (String padChar EmptyString)))
  | a :: b :: c :: rest =>
      let a := Byte.to_N a in
      let b := Byte.to_N b in
      let c := Byte.to_N c in
      String (enc_char (a / 4)%N)
        (String (enc_char ((a mod 4) * 16 + b / 16)%N)
           (String (enc_char ((b mod 16) * 4 + c / 64)%N)
              (String (enc_char (c mod 64)%N) (EncodeToString rest))))
  end.

Definition is_newline (c : ascii) : bool :=
  Ascii.eqb c "010" || Ascii.eqb c "013".

(** The 24-bit value of four sextets and its three bytes. *)
Definition quantum (d0 d1 d2 d3 : N) : N :=
  (((d0 * 64 + d1) * 64 + d2) * 64 + d3)%N.
Definition byte0 (v : N) : byte := byte_of_N (v / 65536)%N.
Definition byte1 (v : N) : byte := byte_of_N (v / 256)%N.
Definition byte2 (v : N) : byte := byte_of_N v.

Fixpoint decode_quanta (cs : list ascii) : Res bytes :=
  match cs with
  | [] => Ok []
  | c0 :: c1 :: c2 :: c3 :: rest =>
      match dec_char c0, dec_char c1 with
      | Some d0, Some d1 =>
          match dec_char c2, dec_char c3 with
          | Some d2, Some d3 =>
              let v := quantum d0 d1 d2 d3 in
              bs ← decode_quanta rest;
              Ok (byte0 v :: byte1 v :: byte2 v :: bs)
          | Some d2, None =>
              if Ascii.eqb c3 padChar && bool_decide (rest = [])
              then let v := quantum d0 d1 d2 0 in Ok [byte0 v; byte1 v]
              else Err CorruptInputError
          | None, _ =>
              if Ascii.eqb c2 padChar && Ascii.eqb c3 padChar
                 && bool_decide (rest = [])
              then let v := quantum d0 d1 0 0 in Ok [byte0 v]
              else Err CorruptInputError
          end
      | _, _ => Err CorruptInputError
      end
  | _ => Err CorruptInputError
  end.

Definition keep (c : ascii) : bool := negb (is_newline c).

Definition DecodeString (s : string) : Res bytes :=
  decode_quanta (List.filter keep (list_ascii_of_string s)).

(** The check that [decodeMap] inverts the alphabet at sextet [i] and
    that the character is not skipped by the decoder. *)
Definition sextet_ok (i : nat) : bool :=
  let n := N.of_nat i in
  bool_decide (dec_char (enc_char n) = Some n)
  && negb (is_newline (enc_char n)).

End base64.

(** ** The DynamoDB table

    The service is modelled by its documented behaviour on one available
    table with partition key [name] and sort key [version], both of type
    string: items are attribute maps, a key condition selects on the two
    key attributes, [ScanIndexForward = false] returns the matching items
    in descending order of the sort key (for a string key: byte order),
    [Limit] truncates, a projection restricts the attributes returned. A
    result set is returned in one page. *)

Module dynamodb.

Inductive AttributeValue : Type :=
| AttrS (s : string)
| AttrN (n : Z).

#[global] Instance AttributeValue_eq_dec : EqDecision AttributeValue.
Proof. solve_decision. Defined.

Abbreviation Item := (gmap string AttributeValue).

(** [aws.StringValue(v.S)]: the empty string when the [S] field is nil. *)
Definition StringValue_S (v : AttributeValue) : string :=
  match v with
  | AttrS s => s
  | AttrN _ => EmptyString
  end.

Definition item_key (it : Item) : option (string * string) :=
  match it !! "name", it !! "version" with
  | Some (AttrS n), Some (AttrS v) => Some (n, v)
  | _, _ => None
  end.

Definition has_key (k : string * string) (it : Item) : bool :=
  bool_decide (item_key it = Some k).

Definition has_name (n : string) (it : Item) : bool :=
  match item_key it with
  | Some (n', _) => bool_decide (n' = n)
  | None => false
  end.

Definition sort_key (it : Item) : string :=
  match item_key it with
  | Some (_, v) => v
  | None => EmptyString
  end.

(** Descending order of the sort key. *)
Fixpoint insert_desc (it : Item) (l : list Item) : list Item :=
  match l with
  | [] => [it]
  | it' :: l' =>
      if String.ltb (sort_key it) (sort_key it')
      then it' :: insert_desc it l'
      else it :: l
  end.

Definition sort_desc (l : list Item) : list Item :=
  foldr insert_desc [] l.

Definition project (attrs : option (list string)) (it : Item) : Item :=
  match attrs with
  | None => it
  | Some names => filter (fun kv => bool_decide (kv.1 ∈ names)) it
  end.

Definition limit_to (limit : option nat) (l : list Item) : list Item :=
  match limit with
  | None => l
  | Some n => take n l
  end.

(** [Query] with [KeyConditionExpression] [#N = :name] (and
    [version = :version] when a version is given), consistent read,
    descending. *)
Definition Query (t : list Item) (name : string) (version : option string)
    (limit : option nat) (attrs : option (list string)) : Res (list Item) :=
  let matching :=
    List.filter
      (fun it =>
         match version with
         | None => has_name name it
         | Some v => has_key (name, v) it
         end) t in
  Ok (project attrs <$> limit_to limit (sort_desc matching)).

Definition Scan (t : list Item) (attrs : option (list string))
  : Res (list Item) :=
  Ok (project attrs <$> t).

(** [PutItem] with [ConditionExpression] [attribute_not_exists(#N)]: the
    condition is evaluated on the stored item that has the key of the new
    one; a key attribute exists on every stored item. *)
Definition PutItem (t : list Item) (it : Item) : Res unit * list Item :=
  match item_key it with
  | None => (Err (AwsErr "ValidationException"), t)
  | Some k =>
      if existsb (has_key k) t
      then (Err (AwsErr "ConditionalCheckFailedException"), t)
      else (Ok tt, t ++ [it])
  end.

Definition DeleteItem (t : list Item) (name version : string)
  : Res unit * list Item :=
  (Ok tt, List.filter (fun it => negb (has_key (name, version) it)) t).

End dynamodb.
Export dynamodb.

(** ** The package *)

Definition DefaultKmsKey : string := "alias/credstash".

Record Credential : Type := {
  Name : string;
  Version : string;
  Key : string;
  Contents : string;
  Hmac : string;
  CreatedAt : Z
}.

#[global] Instance Credential_eq_dec : EqDecision Credential.
Proof. solve_decision. Defined.

Record DecryptedCredential : Type := {
  Cred : Credential;
  Secret : string
}.

#[global] Instance DecryptedCredential_eq_dec : EqDecision DecryptedCredential.
Proof. solve_decision. Defined.

Record DataKey : Type := {
  CiphertextBlob : bytes;
  Plaintext : bytes
}.

(** The state the package acts on: the table behind [dynamoSvc] and a
    counter that indexes what differs from call to call (the data key the
    key-management service generates, the time of day). *)
Record World : Type := {
  table : list Item;
  tick : nat
}.

(** The collaborators of the package file that live in its other files. *)

(** The attribute codec: [Encode] and [Decode]. *)
Class Codec : Type := {
  Encode : Credential -> Res Item;
  Decode : Item -> Res Credential
}.

(** The key-management client: [GenerateDataKey] and [DecryptDataKey]. *)
Class KMS : Type := {
  GenerateDataKey : nat -> string -> Z -> Res DataKey;
  DecryptDataKey : bytes -> Res DataKey
}.

(** The cipher and the MAC: [Encrypt], [Decrypt], [ComputeHmac256]. *)
Class Crypto : Type := {
  Encrypt : bytes -> bytes -> Res bytes;
  Decrypt : bytes -> bytes -> Res bytes;
  ComputeHmac256 : bytes -> bytes -> string
}.

(** What the Go runtime leaves open: the result of [sort.Sort] among
    elements that compare equal, the order in which [range] visits a map,
    and the clock. *)
Class GoRuntime : Type := {
  sort_Sort : forall A : Type, (A -> A -> bool) -> list A -> list A;
  map_range : forall V : Type, gmap string V -> list (string * V);
  time_Now_Unix : nat -> Z
}.
Arguments sort_Sort {_ _} less l.
Arguments map_range {_ _} m.

(** A [Less] that [sort.Sort] can work with. *)
Record StrictWeakOrder {A : Type} (less : A -> A -> bool) : Prop := {
  less_asym : forall a b, less a b = true -> less b a = false;
  less_neg_trans :
    forall a b c, less b a = false -> less c b = false -> less c a = false
}.

Record GoRuntimeLaws (R : GoRuntime) : Prop := {
  sort_Sort_perm :
    forall (A : Type) (less : A -> A -> bool) (l : list A),
      sort_Sort less l ≡ₚ l;
  sort_Sort_sorted :
    forall (A : Type) (less : A -> A -> bool) (l : list A),
      StrictWeakOrder less ->
      StronglySorted (fun a b => less b a = false) (sort_Sort less l);
  map_range_perm :
    forall (V : Type) (m : gmap string V), map_range m ≡ₚ map_to_list m
}.

Record CodecLaws (C : Codec) : Prop := {
  Encode_key :
    forall c it, Encode c = Ok it -> item_key it = Some (Name c, Version c);
  Decode_key :
    forall it c n v,
      Decode it = Ok c -> item_key it = Some (n, v) ->
      Name c = n /\ Version c = v;
  Decode_Encode : forall c it, Encode c = Ok it -> Decode it = Ok c
}.

Record CryptoLaws (C : Crypto) : Prop := {
  Decrypt_Encrypt :
    forall k m c, Encrypt k m = Ok c -> Decrypt k c = Ok m
}.

Section Package.

Context {codec : Codec} {kms : KMS} {crypto : Crypto} {runtime : GoRuntime}.

(** [ByVersion.Less]: the errors of [Atoi] are dropped. *)
Definition ByVersion_Less (a b : Credential) : bool :=
  (Atoi (Version a)).1 <? (Atoi (Version b)).1.

(** [ByName.Less] *)
Definition ByName_Less (a b : Credential) : bool :=
  String.ltb (Name a) (Name b).

Definition decryptCredential (cred : Credential) : Res DecryptedCredential :=
  wrappedKey ← base64.DecodeString (Key cred);
  dk ← DecryptDataKey wrappedKey;
  dataKey ← slice_to 32 (Plaintext dk);
  hmacKey ← slice_from 32 (Plaintext dk);
  contents ← base64.DecodeString (Contents cred);
  let hexhmac := ComputeHmac256 contents hmacKey in
  if decide (hexhmac ≠ Hmac cred) then Err ErrHmacValidationFailed
  else
    secret ← Decrypt dataKey contents;
    let plainText := string_of_bytes secret in
    Ok {| Cred := cred; Secret := plainText |}.

Definition decodeCredential (items : list Item) : Res (list Credential) :=
  forM Decode items.

Definition filterLatest (creds : list Credential) : Res (list Credential) :=
  let creds := sort_Sort ByVersion_Less creds in
  let names : gmap string Credential :=
    foldl (fun names cred => <[Name cred := cred]> names) ∅ creds in
  let results := (map_range names).*2 in
  Ok (sort_Sort ByVersion_Less results).

Definition GetSecret (w : World) (name version : string)
  : Res DecryptedCredential :=
  let keyCond :=
    if decide (0 < String.length version)%nat then Some version else None in
  res ← Query (table w) name keyCond (Some 1%nat) None;
  match res with
  | [] => Err ErrSecretNotFound
  | item :: _ => cred ← Decode item; decryptCredential cred
  end.

Definition GetHighestVersion (w : World) (name : string) : Res string :=
  res ← Query (table w) name None (Some 1%nat) (Some ["version"]);
  match res with
  | [] => Err ErrSecretNotFound
  | item :: _ =>
      match item !! "version" with
      | None => Err ErrSecretNotFound
      | Some v => Ok (StringValue_S v)
      end
  end.

Definition ListSecrets (w : World) (allVersions : bool)
  : Res (list Credential) :=
  res ← Scan (table w) (Some ["name"; "version"; "created_at"]);
  creds ← decodeCredential res;
  creds ← (if negb allVersions then filterLatest creds else Ok creds);
  Ok (sort_Sort ByName_Less creds).

(** One turn of the loop of [GetAllSecrets]: [dcred] is nil whenever
    [decryptCredential] returns an error. *)
Definition GetAllSecrets_step
    (results : list (option DecryptedCredential)) (cred : Credential)
  : Res (list (option DecryptedCredential)) :=
  match decryptCredential cred with
  | Panic => Panic
  | Ok dcred => Ok (results ++ [Some dcred])
  | Err err =>
      match err with
      | AwsErr code =>
          if decide (code = "AccessDeniedException") then Ok results
          else Ok (results ++ [None])
      | _ => Ok (results ++ [None])
      end
  end.

Fixpoint GetAllSecrets_loop
    (results : list (option DecryptedCredential)) (creds : list Credential)
  : Res (list (option DecryptedCredential)) :=
  match creds with
  | [] => Ok results
  | cred :: creds' =>
      results' ← GetAllSecrets_step results cred;
      GetAllSecrets_loop results' creds'
  end.

(** [GetAllSecrets] up to the loop: the records it goes on to decrypt,
    in the order of the loop. *)
Definition GetAllSecrets_creds (w : World) (allVersions : bool)
  : Res (list Credential) :=
  res ← Scan (table w)
          (Some ["name"; "version"; "key"; "contents"; "hmac"; "created_at"]);
  creds ← decodeCredential res;
  creds ← (if negb allVersions then filterLatest creds else Ok creds);
  Ok (sort_Sort ByName_Less creds).

Definition GetAllSecrets (w : World) (allVersions : bool)
  : Res (list (option DecryptedCredential)) :=
  creds ← GetAllSecrets_creds w allVersions;
  GetAllSecrets_loop [] creds.

(** [PutSecret] up to and including [Encode]: the item handed to
    [PutItem]. *)
Definition PutSecret_item (w : World) (alias name secret version : string)
  : Res Item :=
  let kmsKey := if decide (alias ≠ EmptyString) then alias else DefaultKmsKey in
  let version := if decide (version = EmptyString) then "1" else version in
  dk ← GenerateDataKey (tick w) kmsKey 64;
  dataKey ← slice_to 32 (Plaintext dk);
  hmacKey ← slice_from 32 (Plaintext dk);
  let wrappedKey := CiphertextBlob dk in
  ctext ← Encrypt dataKey (bytes_of_string secret);
  let b64hmac := ComputeHmac256 ctext hmacKey in
  let b64ctext := base64.EncodeToString ctext in
  let cred :=
    {| Name := name;
       Version := version;
       Key := base64.EncodeToString wrappedKey;
       Contents := b64ctext;
       Hmac := b64hmac;
       CreatedAt := time_Now_Unix (tick w) |} in
  Encode cred.

Definition PutSecret (w : World) (alias name secret version : string)
  : Res unit * World :=
  match PutSecret_item w alias name secret version with
  | Ok data =>
      let '(err, t') := PutItem (table w) data in
      (err, {| table := t'; tick := S (tick w) |})
  | Err e => (Err e, {| table := table w; tick := S (tick w) |})
  | Panic => (Panic, {| table := table w; tick := S (tick w) |})
  end.

Fixpoint DeleteSecret_loop (t : list Item) (items : list Item)
  : Res unit * list Item :=
  match items with
  | [] => (Ok tt, t)
  | item :: items' =>
      match Decode item with
      | Ok cred =>
          match DeleteItem t (Name cred) (Version cred) with
          | (Ok _, t') => DeleteSecret_loop t' items'
          | (Err e, t') => (Err e, t')
          | (Panic, t') => (Panic, t')
          end
      | Err e => (Err e, t)
      | Panic => (Panic, t)
      end
  end.

Definition DeleteSecret (w : World) (name : string) : Res unit * World :=
  match Query (table w) name None None None with
  | Ok items =>
      let '(err, t') := DeleteSecret_loop (table w) items in
      (err, {| table := t'; tick := tick w |})
  | Err e => (Err e, w)
  | Panic => (Panic, w)
  end.

Definition ResolveVersion (w : World) (name : string) (version : Z)
  : Res string :=
  if decide (version ≠ 0) then Ok (Itoa version)
  else
    match GetHighestVersion w name with
    | Err err =>
        if decide (err = ErrSecretNotFound) then Ok "1" else Err err
    | Panic => Panic
    | Ok ver =>
        match Atoi ver with
        | (_, Some err) => Err err
        | (version, None) =>
            let version := wrap (version + 1) in
            Ok (Itoa version)
        end
    end.

End Package.

(** ** Reference collaborators

    Executable instances of the four interfaces, used to run the package
    on concrete tables. *)

Module Ref.

(** Modelled from the spec: the attribute codec ([Encode], [Decode]),
    which lives in another file of the package. One attribute per
    field under the field's [ds] tag, strings as [S], [created_at] as
    [N]; a missing attribute leaves the field at its zero value
    ([createdAt] is optional). *)
Definition encode (c : Credential) : Res Item :=
  Ok (<["name" := AttrS (Name c)]>
      (<["version" := AttrS (Version c)]>
       (<["key" := AttrS (Key c)]>
        (<["contents" := AttrS (Contents c)]>
         (<["hmac" := AttrS (Hmac c)]>
          (<["created_at" := AttrN (CreatedAt c)]> ∅)))))).

Definition field_S (it : Item) (k : string) : Res string :=
  match it !! k with
  | None => Ok EmptyString
  | Some (AttrS s) => Ok s
  | Some (AttrN _) => Err (OtherError "ds: type mismatch")
  end.

Definition field_N (it : Item) (k : string) : Res Z :=
  match it !! k with
  | None => Ok 0
  | Some (AttrN n) => Ok n
  | Some (AttrS _) => Err (OtherError "ds: type mismatch")
  end.

Definition decode (it : Item) : Res Credential :=
  name ← field_S it "name";
  version ← field_S it "version";
  key ← field_S it "key";
  contents ← field_S it "contents";
  hmac ← field_S it "hmac";
  created_at ← field_N it "created_at";
  Ok {| Name := name; Version := version; Key := key;
        Contents := contents; Hmac := hmac; CreatedAt := created_at |}.

#[export] Instance codec : Codec := {| Encode := encode; Decode := decode |}.

(** Modelled from the spec: the key-management client
    ([GenerateDataKey], [DecryptDataKey]), an external service. The data
    key has the requested number of bytes and depends on the call; the
    wrapped key is a tag byte followed by the key reversed. A key wrapped
    under the alias ["alias/sealed"] may be generated but not unwrapped
    (the service answers [AccessDeniedException]). *)
Definition key_bytes (t : nat) (n : nat) : bytes :=
  (fun i => base64.byte_of_N (N.of_nat (7 * t + i))) <$> seq 0 n.

Definition generateDataKey (t : nat) (alias : string) (n : Z) : Res DataKey :=
  let pt := key_bytes t (Z.to_nat n) in
  let tag := if decide (alias = "alias/sealed") then x01 else x00 in
  Ok {| CiphertextBlob := tag :: rev pt; Plaintext := pt |}.

Definition decryptDataKey (blob : bytes) : Res DataKey :=
  match blob with
  | x00 :: body => Ok {| CiphertextBlob := blob; Plaintext := rev body |}
  | x01 :: _ => Err (AwsErr "AccessDeniedException")
  | _ => Err (AwsErr "InvalidCiphertextException")
  end.

#[export] Instance kms : KMS :=
  {| GenerateDataKey := generateDataKey; DecryptDataKey := decryptDataKey |}.

(** Modelled from the spec: the cipher and the MAC ([Encrypt],
    [Decrypt], [ComputeHmac256]). Encryption and decryption are the
    identical operation; the tag is a text computed from the MAC key and
    the ciphertext. *)
Definition transform_byte (k b : byte) : byte :=
  base64.byte_of_N ((Byte.to_N k + 256 - Byte.to_N b) mod 256)%N.

Definition transform (key data : bytes) : Res bytes :=
  match key with
  | [] => Err (OtherError "cipher: empty key")
  | k :: _ => Ok (transform_byte k <$> data)
  end.

Definition mac (message key : bytes) : string :=
  base64.EncodeToString (key ++ message).

#[export] Instance crypto : Crypto :=
  {| Encrypt := transform; Decrypt := transform; ComputeHmac256 := mac |}.

(** An insertion sort for [sort.Sort], the map's own enumeration for
    [range], and a clock that advances by one second per call. *)
Fixpoint insert_by {A : Type} (less : A -> A -> bool) (x : A) (l : list A)
  : list A :=
  match l with
  | [] => [x]
  | y :: l' => if less x y then x :: l else y :: insert_by less x l'
  end.

Definition isort {A : Type} (less : A -> A -> bool) (l : list A) : list A :=
  foldr (insert_by less) [] l.

#[export] Instance runtime : GoRuntime :=
  {| sort_Sort := @isort;
     map_range := fun V (m : gmap string V) => map_to_list m;
     time_Now_Unix := fun t => 1445000000 + Z.of_nat t |}.

(** Tables for the examples. *)
Definition empty : World := {| table := []; tick := 0 |}.

Definition put (name secret version : string) (w : World) : World :=
  (PutSecret w EmptyString name secret version).2.

(** Versions ["1"] to [Itoa n] of one name, version [v] holding the
    secret ["secret-" ++ v]. *)
Definition put_versions (name : string) (n : nat) (w : World) : World :=
  foldl
    (fun w i =>
       let v := Itoa (Z.of_nat i) in put name (String.append "secret-" v) v w)
    w (seq 1 n).

(** The stored item under a key with one attribute replaced. *)
Definition tamper (name version attr : string) (val : string) (w : World)
  : World :=
  {| table :=
       (fun it =>
          if has_key (name, version) it then <[attr := AttrS val]> it else it)
       <$> table w;
     tick := tick w |}.

(** The credential an item of the table decodes to. *)
Definition fetch (w : World) (i : nat) : Credential :=
  match decode <$> table w !! i with
  | Some (Ok c) => c
  | _ =>
      {| Name := EmptyString; Version := EmptyString; Key := EmptyString;
         Contents := EmptyString; Hmac := EmptyString; CreatedAt := 0 |}
  end.

Definition bytes_of (r : Res bytes) : bytes :=
  match r with
  | Ok b => b
  | _ => []
  end.

(** Eleven versions of one name; ten versions of one name. *)
Definition w11 : World := put_versions "db/password" 11 empty.
Definition w10 : World := put_versions "db/password" 10 empty.

(** One version of one name; the same with a character of the stored
    ciphertext (["jc2djs2M"]) replaced. *)
Definition w_one : World := put "db/password" "s3cr3t" "1" empty.
Definition w_garbled : World :=
  tamper "db/password" "1" "contents" "!c2djs2M" w_one.

(** Two names, the mac of one of them replaced. *)
Definition w_two : World :=
  put "db/password" "s3cr3t" "1" (put "api/key" "k" "1" empty).
Definition w_forged : World := tamper "db/password" "1" "hmac" "AAAA" w_two.

(** Two versions of one name, the mac of the older one replaced. *)
Definition w_stale : World :=
  tamper "db/password" "1" "hmac" "AAAA" (put_versions "db/password" 2 empty).

(** Two names, the data key of one of them wrapped under an alias the
    caller may not unwrap. *)
Definition w_sealed : World :=
  (PutSecret (put "api/key" "k" "1" empty) "alias/sealed" "ops/token" "t" "1").2.

(** A name whose only version is ["2"]. *)
Definition w_old : World := put "db/password" "old" "2" empty.

(** A one-byte secret, and the same with the last sextet of the stored
    ciphertext (["vw=="]) replaced by one with the same two high bits. *)
Definition w_byte : World := put "k" "A" "1" empty.
Definition w_byte_altered : World := tamper "k" "1" "contents" "vx==" w_byte.

End Ref.

(** ** Vocabulary of the statements *)

Section Vocabulary.

Context {codec : Codec} {kms : KMS} {crypto : Crypto} {runtime : GoRuntime}.

(** The record held under a name and version. *)
Definition stored (w : World) (name version : string) (c : Credential) : Prop :=
  (exists it, it ∈ table w /\ item_key it = Some (name, version))
  /\ forall it, it ∈ table w -> item_key it = Some (name, version) ->
       Decode it = Ok c.

(** The record a read of a name and version selects: the record stored
    under the pair, or, with no version, the record of the name whose
    sort key is above every other's. *)
Definition reads (w : World) (name version : string) (c : Credential) : Prop :=
  if decide (version = EmptyString)
  then
    exists it,
      it ∈ table w /\ has_name name it = true
      /\ (forall it', it' ∈ table w -> has_name name it' = true ->
            it' = it \/ String.ltb (sort_key it') (sort_key it) = true)
      /\ Decode it = Ok c
  else stored w name version c.

(** The key-management service unwraps the data key it generates at
    call [t] under [alias]. *)
Definition unwraps (t : nat) (alias : string) : Prop :=
  forall dk,
    GenerateDataKey t alias 64 = Ok dk ->
    exists dk',
      DecryptDataKey (CiphertextBlob dk) = Ok dk'
      /\ Plaintext dk' = Plaintext dk.

(** The version a write uses and the key alias it asks for. *)
Definition written_version (version : string) : string :=
  if decide (version = EmptyString) then "1" else version.
Definition used_alias (alias : string) : string :=
  if decide (alias ≠ EmptyString) then alias else DefaultKmsKey.

(** A stored version is below [v] in the order of the table's sort key
    and as a number. *)
Definition version_below (v' v : string) : Prop :=
  String.ltb v' v = true /\ (Atoi v').1 < (Atoi v).1.

(** The loop of [GetAllSecrets] passes over a record whose decryption is
    denied by the key-management service; any other record leaves an
    entry, nil unless it decrypts. *)
Definition skipped (c : Credential) : bool :=
  match decryptCredential c with
  | Err (AwsErr code) => bool_decide (code = "AccessDeniedException")
  | _ => false
  end.

Definition entry (c : Credential) : option DecryptedCredential :=
  match decryptCredential c with
  | Ok d => Some d
  | _ => None
  end.

(** The assignment [names[cred.Name] = cred] of [filterLatest]. *)
Definition remember (names : gmap string Credential) (cred : Credential)
  : gmap string Credential :=
  <[Name cred := cred]> names.

(** Checks of the hypotheses above on a given table. *)
Definition holdsb (w : World) (name version : string) : bool :=
  existsb (has_key (name, version)) (table w).

Definition storedb (w : World) (name version : string) (c : Credential)
  : bool :=
  holdsb w name version
  && forallb
       (fun it =>
          implb (has_key (name, version) it) (bool_decide (Decode it = Ok c)))
       (table w).

Definition all_belowb (w : World) (name v : string) : bool :=
  forallb
    (fun it =>
       implb (has_name name it)
         (String.ltb (sort_key it) v
          && ((Atoi (sort_key it)).1 <? (Atoi v).1)))
    (table w).

Definition no_panicb (creds : list Credential) : bool :=
  forallb (fun c => negb (bool_decide (decryptCredential c = Panic))) creds.

End Vocabulary.

(** ** The rest of the package file and its callers *)

(** The HTTP client of [getRegion] and the metadata address [zoneURL],
    which is declared in another file of the package: the outer result is
    that of [client.Get], the inner one that of reading the body. *)
Class HTTP : Type := {
  zoneURL : string;
  client_Get : string -> Res (Res bytes)
}.

(** [getRegion]: the body without its last byte. The slice
    [contents[0 : len-1]] panics on an empty body. *)
Definition getRegion `{HTTP} : Res string :=
  response ← client_Get zoneURL;
  contents ← response;
  if decide (1 <= length contents)%nat
  then Ok (string_of_bytes (take (length contents - 1) contents))
  else Panic.

(** The commands of [main] that compose the package's operations.
    [printFatalError] ends the program: the error is the outcome. *)
Module cli.
Section Commands.

Context {codec : Codec} {kms : KMS} {crypto : Crypto} {runtime : GoRuntime}.

(** [case cmdPut]: the version logged as stored. *)
Definition cmdPut (w : World) (alias name secret : string) (version : Z)
  : Res string * World :=
  match ResolveVersion w name version with
  | Ok version =>
      match PutSecret w alias name secret version with
      | (Ok _, w') => (Ok version, w')
      | (Err err, w') => (Err err, w')
      | (Panic, w') => (Panic, w')
      end
  | Err err => (Err err, w)
  | Panic => (Panic, w)
  end.

(** [case cmdGet]: the line printed. *)
Definition cmdGet (w : World) (name version : string) : Res string :=
  cred ← GetSecret w name version;
  Ok (Secret cred).

(** [case cmdGetAll]: the rows written to the table. [cred.Name] and
    [cred.Secret] dereference the entry, so a nil entry panics. *)
Definition cmdGetAll_row (cred : option DecryptedCredential)
  : Res (list string) :=
  match cred with
  | Some d => Ok [Name (Cred d); Secret d]
  | None => Panic
  end.

Definition cmdGetAll (w : World) (allVersions : bool)
  : Res (list (list string)) :=
  creds ← GetAllSecrets w allVersions;
  forM cmdGetAll_row creds.

End Commands.
End cli.

(** Further vocabulary. *)

(** Every item has its two key attributes and no two items share a key. *)
Definition well_keyed (t : list Item) : Prop :=
  Forall (fun it => is_Some (item_key it)) t /\ NoDup (item_key <$> t).

Definition digits_only (s : string) : bool :=
  forallb (fun c => bool_decide (is_Some (digit_of c)))
    (list_ascii_of_string s).

(** A decimal numeral: digits only, at least one. *)
Definition is_numeral (s : string) : bool :=
  negb (bool_decide (s = EmptyString))
  && forallb (fun c => bool_decide (is_Some (digit_of c)))
       (list_ascii_of_string s).

(** The value of a string of decimal digits, read from the left. *)
Fixpoint parse_digits (acc : Z) (s : string) : option Z :=
  match s with
  | EmptyString => Some acc
  | String c s' =>
      match digit_of c with
      | Some d => parse_digits (10 * acc + d) s'
      | None => None
      end
  end.

Definition numeral_value (s : string) : Z :=
  default 0 (parse_digits 0 s).

(** The versions of a name are numerals of [k] digits. *)
Definition same_width (t : list Item) (name : string) (k : nat) : Prop :=
  forall it, it ∈ t -> has_name name it = true ->
    is_numeral (sort_key it) = true /\ String.length (sort_key it) = k.

Definition same_widthb (t : list Item) (name : string) (k : nat) : bool :=
  forallb
    (fun it =>
       implb (has_name name it)
         (is_numeral (sort_key it)
          && bool_decide (String.length (sort_key it) = k)))
    t.

(** No other version of the name is numerically as high as that of [it]. *)
Definition numeric_top (t : list Item) (name : string) (it : Item) : Prop :=
  forall it', it' ∈ t -> has_name name it' = true ->
    it' = it \/ (Atoi (sort_key it')).1 < (Atoi (sort_key it)).1.

Definition numeric_topb (t : list Item) (name : string) (it : Item) : bool :=
  forallb
    (fun it' =>
       implb (has_name name it')
         (bool_decide (it' = it)
          || ((Atoi (sort_key it')).1 <? (Atoi (sort_key it)).1)))
    t.

Definition no_nameb (t : list Item) (name : string) : bool :=
  forallb (fun it => negb (has_name name it)) t.

Definition well_keyedb (t : list Item) : bool :=
  forallb (fun it => bool_decide (is_Some (item_key it))) t
  && bool_decide (NoDup (item_key <$> t)).

Module Ref_more.
Import Ref.

(** Modelled from the spec: the metadata service [getRegion] asks, which
    answers with an availability zone. *)
#[export] Instance http : HTTP :=
  {| zoneURL := "http://metadata/availability-zone";
     client_Get := fun _ => Ok (Ok (bytes_of_string "us-west-2a")) |}.

(** Versions ["1"] to ["9"] of one name. *)
Definition w9 : World := Ref.put_versions "db/password" 9 Ref.empty.

(** A key-management service whose data keys have 16 bytes. *)
Definition short_kms : KMS :=
  {| GenerateDataKey := fun t alias n => Ref.generateDataKey t alias 16;
     DecryptDataKey := Ref.decryptDataKey |}.

(** The item at a position of the table, and the results of the
    operations on the example tables. *)
Definition item (w : World) (i : nat) : Item := default ∅ (table w !! i).

Definition nobody : Credential :=
  {| Name := EmptyString; Version := EmptyString; Key := EmptyString;
     Contents := EmptyString; Hmac := EmptyString; CreatedAt := 0 |}.

Definition opened (w : World) (i : nat) : DecryptedCredential :=
  match decryptCredential (Ref.fetch w i) with
  | Ok d => d
  | _ => {| Cred := nobody; Secret := EmptyString |}
  end.

Definition got (w : World) (name version : string) : DecryptedCredential :=
  match GetSecret w name version with
  | Ok d => d
  | _ => {| Cred := nobody; Secret := EmptyString |}
  end.

Definition listed (w : World) (allVersions : bool) : list Credential :=
  match ListSecrets w allVersions with
  | Ok creds => creds
  | _ => []
  end.

(** Three records, two of one name. *)
Definition three : list Credential :=
  [ {| Name := "db"; Version := "2"; Key := EmptyString;
       Contents := EmptyString; Hmac := EmptyString; CreatedAt := 0 |};
    {| Name := "api"; Version := "7"; Key := EmptyString;
       Contents := EmptyString; Hmac := EmptyString; CreatedAt := 0 |};
    {| Name := "db"; Version := "10"; Key := EmptyString;
       Contents := EmptyString; Hmac := EmptyString; CreatedAt := 0 |} ].

(** A table whose only item has a text where [created_at] is a number. *)
Definition w_undecodable : World :=
  {| table := [<["created_at" := AttrS "yesterday"]> (item Ref.w_one 0)];
     tick := 1 |}.

(** The table after the put command on [w9], no version given. *)
Definition w9_put : World :=
  (cli.cmdPut w9 EmptyString "db/password" "s3cr3t" 0).2.

End Ref_more.

(** ** Creating the table *)

(** The input of the create-table request, with the fields [Setup]
    fills. *)
Record CreateTableInput : Type := {
  AttributeDefinitions : list (string * string);
  KeySchema : list (string * string);
  ReadCapacityUnits : Z;
  WriteCapacityUnits : Z;
  TableName : string
}.

(** The two table requests of the DynamoDB client. What a describe
    request is answered depends on the state of the service when it is
    made: the interface gives the [TableStatus] (or the error) answered
    to the describe request number [k] of a run, counted from 0. *)
Class TableAPI : Type := {
  CreateTable : CreateTableInput -> Res unit;
  DescribeTable : nat -> string -> Res string
}.

(** The two channels the [select] of [waitForTable] receives from:
    [ticker.C], on which the ticker sends once per second, and
    [timeout], on which the goroutine sends once, after sleeping
    [tableCreateTimeout] (30 seconds). Which channel a [select] takes is
    decided by the run time (when the sends happen, and its choice when
    both channels are ready): the interface gives the channel of the
    receive number [i] of a run, counted from 0. *)
Inductive channel : Type := ticker_C | timeout_chan.

#[global] Instance channel_eq_dec : EqDecision channel.
Proof. solve_decision. Defined.

Class Scheduler : Type := {
  select_receive : nat -> channel
}.

Section Provisioning.

Context {api : TableAPI} {scheduler : Scheduler}.

(** [waitForTable]: the loop, at its receive number [i], after [polls]
    describe requests. [fuel] bounds the number of receives; the result
    comes with the number of describe requests made. *)
Fixpoint waitForTable_loop (fuel : nat) (tableName : string) (i polls : nat)
  : option (Res unit * nat) :=
  match fuel with
  | O => None
  | S fuel' =>
      match select_receive i with
      | ticker_C =>
          match DescribeTable polls tableName with
          | Err err => Some (Err err, S polls)
          | Panic => Some (Panic, S polls)
          | Ok status =>
              if decide (status = "ACTIVE") then Some (Ok tt, S polls)
              else waitForTable_loop fuel' tableName (S i) (S polls)
          end
      | timeout_chan => Some (Err ErrTimeout, polls)
      end
  end.

Definition waitForTable (fuel : nat) (tableName : string)
  : option (Res unit * nat) :=
  waitForTable_loop fuel tableName 0 0.

Definition Setup_input (tableName : string) : CreateTableInput :=
  {| AttributeDefinitions := [("name", "S"); ("version", "S")];
     KeySchema := [("name", "HASH"); ("version", "RANGE")];
     ReadCapacityUnits := 1;
     WriteCapacityUnits := 1;
     TableName := tableName |}.

(** [Setup]: the create-table request, then the wait. *)
Definition Setup (fuel : nat) (tableName : string)
  : option (Res unit * nat) :=
  match CreateTable (Setup_input tableName) with
  | Ok _ => waitForTable fuel tableName
  | Err err => Some (Err err, 0%nat)
  | Panic => Some (Panic, 0%nat)
  end.

(** A describe request answered with a status that is not ["ACTIVE"]. *)
Definition not_yet_active (answer : Res string) : Prop :=
  exists status, answer = Ok status /\ status ≠ "ACTIVE".

End Provisioning.

(** Services and schedulers to run [Setup] on. *)
Module Ref_setup.

(** A service that accepts the create-table request and answers the
    describe requests as [answer] says. *)
Definition service (answer : nat -> Res string) : TableAPI :=
  {| CreateTable := fun _ => Ok tt;
     DescribeTable := fun k _ => answer k |}.

(** The table is being created until the request number [k], and active
    from then on. *)
Definition active_from (k : nat) : TableAPI :=
  service (fun i => if decide (k <= i)%nat then Ok "ACTIVE" else Ok "CREATING").

(** The table is being created until the request number [k], which is
    answered with an error, as are all later ones. *)
Definition failing_from (k : nat) : TableAPI :=
  service (fun i =>
             if decide (k <= i)%nat then Err (AwsErr "ResourceNotFoundException")
             else Ok "CREATING").

(** The create-table request is refused. *)
Definition refusing : TableAPI :=
  {| CreateTable := fun _ => Err (AwsErr "ResourceInUseException");
     DescribeTable := fun _ _ => Ok "ACTIVE" |}.

(** [n] ticks are received before the deadline. *)
Definition deadline_after (n : nat) : Scheduler :=
  {| select_receive :=
       fun i => if decide (i < n)%nat then ticker_C else timeout_chan |}.

End Ref_setup.

(** * Properties *)

(** ** The Go library functions on known values *)

Module Go_facts.

Example Atoi_decimal : Atoi "11" = (11, None).
Proof. reflexivity. Qed.

Example Atoi_signs : Atoi "+7" = (7, None) /\ Atoi "-7" = (-7, None).
Proof. split; reflexivity. Qed.

Example Atoi_syntax :
  Atoi "" = (0, Some ErrSyntax) /\ Atoi "1x" = (0, Some ErrSyntax)
  /\ Atoi "-" = (0, Some ErrSyntax).
Proof. repeat split. Qed.

Example Atoi_range :
  Atoi "9223372036854775808" = (maxInt, Some ErrRange)
  /\ Atoi "-9223372036854775809" = (minInt, Some ErrRange)
  /\ Atoi "9223372036854775807" = (maxInt, None).
Proof. repeat split. Qed.

(** The first of the two failures decides. *)
Example Atoi_range_before_syntax :
  Atoi "99999999999999999999x" = (maxInt, Some ErrRange)
  /\ Atoi "-99999999999999999999x" = (minInt, Some ErrRange)
  /\ Atoi "9999999999999999999x" = (0, Some ErrSyntax)
  /\ Atoi "-9223372036854775808" = (minInt, None).
Proof. repeat split. Qed.

Example Itoa_values : Itoa 10 = "10" /\ Itoa 0 = "0" /\ Itoa (-3) = "-3".
Proof. repeat split. Qed.

Example wrap_overflow : wrap (maxInt + 1) = minInt /\ wrap 10 = 10.
Proof. split; reflexivity. Qed.

(** The test vectors of RFC 4648. *)
Example EncodeToString_vectors :
  base64.EncodeToString <$>
    (bytes_of_string <$> [""; "f"; "fo"; "foo"; "foob"; "fooba"; "foobar"])
  = [""; "Zg=="; "Zm8="; "Zm9v"; "Zm9vYg=="; "Zm9vYmE="; "Zm9vYmFy"].
Proof. reflexivity. Qed.

Example DecodeString_vectors :
  base64.DecodeString <$> ["Zg=="; "Zm8="; "Zm9v"; "Zm9vYmE="]
  = Ok <$> (bytes_of_string <$> ["f"; "fo"; "foo"; "fooba"]).
Proof. reflexivity. Qed.

Example DecodeString_newlines :
  base64.DecodeString (String "Z" (String "010" (String "g" (String "=" (String "013" (String "=" EmptyString))))))
  = Ok (bytes_of_string "f").
Proof. reflexivity. Qed.

Example DecodeString_corrupt :
  base64.DecodeString <$> ["Zg="; "Zg"; "Z==="; "Zg==Zg=="; "Zm9v!A=="; "Zg==x"]
  = replicate 6 (Err CorruptInputError).
Proof. reflexivity. Qed.

(** Non-strict decoding: the low bits of the last sextet are ignored. *)
Example DecodeString_trailing_bits :
  base64.DecodeString "Zh==" = base64.DecodeString "Zg==".
Proof. reflexivity. Qed.

End Go_facts.

(** ** base64 round trip *)

Module base64_facts.
Import base64.

Lemma sextets_ok : forallb sextet_ok (seq 0 64) = true.
Proof. vm_compute. reflexivity. Qed.

Lemma sextet_ok_lt (n : N) : (n < 64)%N -> sextet_ok (N.to_nat n) = true.
Proof.
  intros Hn. pose proof sextets_ok as H.
  rewrite forallb_forall in H. apply H.
  apply in_seq. lia.
Qed.

Lemma dec_enc_char (n : N) : (n < 64)%N -> dec_char (enc_char n) = Some n.
Proof.
  intros Hn. pose proof (sextet_ok_lt n Hn) as H.
  unfold sextet_ok in H. rewrite N2Nat.id in H.
  apply andb_prop in H as [H _]. by apply bool_decide_eq_true in H.
Qed.

Lemma enc_char_not_newline (n : N) :
  (n < 64)%N -> is_newline (enc_char n) = false.
Proof.
  intros Hn. pose proof (sextet_ok_lt n Hn) as H.
  unfold sextet_ok in H. rewrite N2Nat.id in H.
  apply andb_prop in H as [_ H]. by apply negb_true_iff in H.
Qed.

Lemma to_N_lt (b : byte) : (Byte.to_N b < 256)%N.
Proof. pose proof (Byte.to_N_bounded b). lia. Qed.

Lemma byte_of_to_N (b : byte) : byte_of_N (Byte.to_N b) = b.
Proof.
  unfold byte_of_N. rewrite N.mod_small by apply to_N_lt.
  by rewrite Byte.of_to_N.
Qed.

Lemma sextet0_lt (a : N) : (a < 256)%N -> (a / 4 < 64)%N.
Proof. intros. apply N.Div0.div_lt_upper_bound. lia. Qed.

Lemma sextet1_lt (a b : N) :
  (b < 256)%N -> ((a mod 4) * 16 + b / 16 < 64)%N.
Proof.
  intros. pose proof (N.mod_lt a 4 ltac:(lia)).
  assert (b / 16 < 16)%N by (apply N.Div0.div_lt_upper_bound; lia).
  lia.
Qed.

Lemma sextet2_lt (b c : N) :
  (c < 256)%N -> ((b mod 16) * 4 + c / 64 < 64)%N.
Proof.
  intros. pose proof (N.mod_lt b 16 ltac:(lia)).
  assert (c / 64 < 4)%N by (apply N.Div0.div_lt_upper_bound; lia).
  lia.
Qed.

Lemma sextet3_lt (c : N) : (c mod 64 < 64)%N.
Proof. apply N.mod_lt. lia. Qed.

Lemma quantum_value (a b c : N) :
  quantum (a / 4) ((a mod 4) * 16 + b / 16) ((b mod 16) * 4 + c / 64)
    (c mod 64)
  = (a * 65536 + b * 256 + c)%N.
Proof.
  unfold quantum.
  pose proof (N.div_mod' a 4). pose proof (N.div_mod' b 16).
  pose proof (N.div_mod' c 64). lia.
Qed.

Lemma value_byte0 (a b c : N) :
  (b < 256)%N -> (c < 256)%N ->
  byte_of_N ((a * 65536 + b * 256 + c) / 65536) = byte_of_N a.
Proof.
  intros. f_equal. symmetry.
  apply (N.div_unique _ _ _ (b * 256 + c)%N); lia.
Qed.

Lemma value_byte1 (a b c : N) :
  (b < 256)%N -> (c < 256)%N ->
  byte_of_N ((a * 65536 + b * 256 + c) / 256) = byte_of_N b.
Proof.
  intros. unfold byte_of_N.
  replace ((a * 65536 + b * 256 + c) / 256)%N with (a * 256 + b)%N
    by (apply (N.div_unique _ _ _ c); lia).
  replace ((a * 256 + b) mod 256)%N with (b mod 256)%N; [done|].
  rewrite (N.mod_small b) by lia.
  apply (N.mod_unique _ _ a); lia.
Qed.

Lemma value_byte2 (a b c : N) :
  (c < 256)%N ->
  byte_of_N (a * 65536 + b * 256 + c) = byte_of_N c.
Proof.
  intros. unfold byte_of_N.
  replace ((a * 65536 + b * 256 + c) mod 256)%N with (c mod 256)%N; [done|].
  rewrite (N.mod_small c) by lia.
  apply (N.mod_unique _ _ (a * 256 + b)%N); lia.
Qed.


Lemma list_ind3 {A : Type} (P : list A -> Prop) :
  P [] -> (forall a, P [a]) -> (forall a b, P [a; b]) ->
  (forall a b c l, P l -> P (a :: b :: c :: l)) ->
  forall l, P l.
Proof.
  intros H0 H1 H2 H3 l.
  assert (forall n l, (length l <= n)%nat -> P l) as Hn.
  { clear l. induction n as [|n IH]; intros l Hl.
    - destruct l; [done | simpl in Hl; lia].
    - destruct l as [|a [|b [|c l]]]; auto.
      apply H3, IH. simpl in Hl. lia. }
  by apply (Hn (length l)).
Qed.

Lemma keep_enc_char (n : N) : (n < 64)%N -> keep (enc_char n) = true.
Proof. intros Hn. unfold keep. by rewrite enc_char_not_newline. Qed.

Lemma keep_padChar : keep padChar = true.
Proof. reflexivity. Qed.

Lemma dec_char_padChar : dec_char padChar = None.
Proof. reflexivity. Qed.

Ltac sextet_bound :=
  first [ apply sextet0_lt | apply sextet1_lt | apply sextet2_lt
        | apply sextet3_lt ]; first [ apply to_N_lt | lia ].

Lemma sextet1_pad (a : N) : ((a mod 4) * 16 = (a mod 4) * 16 + 0 / 16)%N.
Proof. change (0 / 16)%N with 0%N. lia. Qed.

Lemma sextet2_pad (b : N) : ((b mod 16) * 4 = (b mod 16) * 4 + 0 / 64)%N.
Proof. change (0 / 64)%N with 0%N. lia. Qed.

Lemma decode_quanta_encode (src : bytes) :
  decode_quanta
    (List.filter keep (list_ascii_of_string (EncodeToString src)))
  = Ok src.
Proof.
  induction src as [|x|x y|x y z src IH] using list_ind3.
  - reflexivity.
  - cbn [EncodeToString list_ascii_of_string List.filter].
    rewrite (sextet1_pad (Byte.to_N x)).
    rewrite !keep_enc_char, !keep_padChar by sextet_bound.
    cbn [decode_quanta].
    rewrite !dec_enc_char by sextet_bound.
    rewrite dec_char_padChar. cbn.
    pose proof (quantum_value (Byte.to_N x) 0 0) as Hq.
    change (0 mod 16 * 4 + 0 / 64)%N with 0%N in Hq.
    change (0 mod 64)%N with 0%N in Hq.
    unfold byte0. rewrite Hq, value_byte0 by lia.
    by rewrite byte_of_to_N.
  - cbn [EncodeToString list_ascii_of_string List.filter].
    rewrite (sextet2_pad (Byte.to_N y)).
    rewrite !keep_enc_char, !keep_padChar by sextet_bound.
    cbn [decode_quanta].
    rewrite !dec_enc_char by sextet_bound.
    rewrite dec_char_padChar. cbn.
    pose proof (quantum_value (Byte.to_N x) (Byte.to_N y) 0) as Hq.
    change (0 mod 64)%N with 0%N in Hq.
    unfold byte0, byte1.
    rewrite Hq, value_byte0, value_byte1 by (apply to_N_lt || lia).
    by rewrite !byte_of_to_N.
  - cbn [EncodeToString list_ascii_of_string List.filter].
    rewrite !keep_enc_char by sextet_bound.
    cbn [decode_quanta].
    rewrite !dec_enc_char by sextet_bound.
    rewrite IH. cbn.
    unfold byte0, byte1, byte2.
    rewrite quantum_value, value_byte0, value_byte1, value_byte2
      by (apply to_N_lt).
    by rewrite !byte_of_to_N.
Qed.

(** [DecodeString] returns bytes or [CorruptInputError]. *)
Lemma decode_quanta_result (cs : list ascii) :
  (exists b, decode_quanta cs = Ok b)
  \/ decode_quanta cs = Err CorruptInputError.
Proof.
  assert (forall n cs, (length cs <= n)%nat ->
            (exists b, decode_quanta cs = Ok b)
            \/ decode_quanta cs = Err CorruptInputError) as Hn.
  { clear cs. induction n as [|n IH]; intros cs Hl.
    - destruct cs; [left; by eexists | simpl in Hl; lia].
    - destruct cs as [|c0 [|c1 [|c2 [|c3 rest]]]];
        [left; by eexists | by right..|].
      cbn [decode_quanta].
      destruct (dec_char c0), (dec_char c1); [|by right..].
      destruct (dec_char c2), (dec_char c3).
      + destruct (IH rest) as [[b ->]| ->]; [simpl in Hl; lia| |].
        * left. by eexists.
        * by right.
      + destruct (_ && _); [left; by eexists|by right].
      + destruct (_ && _); [left; by eexists|by right].
      + destruct (_ && _); [left; by eexists|by right]. }
  by apply (Hn (length cs)).
Qed.

Lemma DecodeString_result (s : string) :
  (exists b, DecodeString s = Ok b) \/ DecodeString s = Err CorruptInputError.
Proof. apply decode_quanta_result. Qed.

(** [DecodeString] inverts [EncodeToString]. *)
Lemma DecodeString_EncodeToString (src : bytes) :
  DecodeString (EncodeToString src) = Ok src.
Proof. apply decode_quanta_encode. Qed.

End base64_facts.

(** ** The table: ordering of a query *)

Module dynamodb_facts.

Lemma ltb_asym (s1 s2 : string) :
  String.ltb s1 s2 = true -> String.ltb s2 s1 = false.
Proof.
  unfold String.ltb. rewrite (String.compare_antisym s1 s2).
  by destruct (String.compare s2 s1).
Qed.

Lemma insert_desc_perm (it : Item) (l : list Item) :
  insert_desc it l ≡ₚ it :: l.
Proof.
  induction l as [|it' l IH]; [done|]. simpl.
  destruct (String.ltb _ _); [|done].
  rewrite IH. apply Permutation_swap.
Qed.

Lemma sort_desc_perm (l : list Item) : sort_desc l ≡ₚ l.
Proof.
  induction l as [|it l IH]; [done|]. simpl.
  by rewrite insert_desc_perm, IH.
Qed.

Lemma elem_of_sort_desc (it : Item) (l : list Item) :
  it ∈ sort_desc l <-> it ∈ l.
Proof. by rewrite sort_desc_perm. Qed.

(** The first item of a descending query is the one whose sort key is
    above every other's. *)
Lemma sort_desc_head (it : Item) (l : list Item) :
  it ∈ l ->
  (forall it', it' ∈ l ->
     it' = it \/ String.ltb (sort_key it') (sort_key it) = true) ->
  head (sort_desc l) = Some it.
Proof.
  induction l as [|a l IH]; intros Hin Hmax.
  - by apply elem_of_nil in Hin.
  - simpl. destruct (decide (it ∈ l)) as [Hl|Hl].
    + assert (head (sort_desc l) = Some it) as Hh.
      { apply IH; [done|]. intros it' Hit'. apply Hmax. by right. }
      destruct (sort_desc l) as [|z l'] eqn:Hs; [done|].
      simpl in Hh. injection Hh as ->. simpl.
      destruct (String.ltb (sort_key a) (sort_key it)) eqn:Hlt; [done|].
      destruct (Hmax a) as [->|Ha]; [by left|done|congruence].
    + assert (a = it) as ->.
      { apply elem_of_cons in Hin as [->|?]; done. }
      destruct (sort_desc l) as [|z l'] eqn:Hs; [done|]. simpl.
      assert (z ∈ l) as Hz.
      { apply elem_of_sort_desc. rewrite Hs. by left. }
      destruct (Hmax z) as [->|Hlt]; [by right|done|].
      by rewrite (ltb_asym _ _ Hlt).
Qed.

Lemma elem_of_filter_bool {A : Type} (f : A -> bool) (x : A) (l : list A) :
  x ∈ List.filter f l <-> x ∈ l /\ f x = true.
Proof.
  rewrite !list_elem_of_In, filter_In. done.
Qed.

Lemma has_name_key (name : string) (it : Item) :
  has_name name it = true <-> exists v, item_key it = Some (name, v).
Proof.
  unfold has_name. destruct (item_key it) as [[n v]|].
  - rewrite bool_decide_eq_true. split.
    + intros ->. by exists v.
    + by intros [v' [= -> _]].
  - split; [done|]. by intros [v' ?].
Qed.

Lemma has_key_true (k : string * string) (it : Item) :
  has_key k it = true <-> item_key it = Some k.
Proof. unfold has_key. apply bool_decide_eq_true. Qed.

Lemma existsb_has_key (k : string * string) (t : list Item) :
  existsb (has_key k) t = true <-> exists it, it ∈ t /\ item_key it = Some k.
Proof.
  rewrite existsb_exists. split.
  - intros (it & Hin & Hk). exists it.
    by rewrite list_elem_of_In, <- has_key_true.
  - intros (it & Hin & Hk). exists it.
    by rewrite <- list_elem_of_In, has_key_true.
Qed.

End dynamodb_facts.

(** ** The reference collaborators meet their contracts *)

Module Ref_facts.
Import Ref base64_facts.

Lemma codec_laws : CodecLaws Ref.codec.
Proof.
  split.
  - intros c it [= <-]. reflexivity.
  - intros it c n v Hd Hk. unfold item_key in Hk.
    simpl in Hd. unfold decode, field_S, field_N in Hd.
    destruct (it !! "name") as [[nm|]|]; try done.
    destruct (it !! "version") as [[vs|]|]; try done.
    injection Hk as -> ->. simpl in Hd.
    repeat (match type of Hd with
            | context [match ?x with _ => _ end] => destruct x; simpl in Hd
            end; try done).
    all: by injection Hd as <-.
  - intros c it [= <-]. by destruct c.
Qed.

Lemma transform_byte_involutive (k b : byte) :
  transform_byte k (transform_byte k b) = b.
Proof.
  unfold transform_byte.
  pose proof (to_N_lt k). pose proof (to_N_lt b).
  set (x := ((Byte.to_N k + 256 - Byte.to_N b) mod 256)%N).
  assert (x < 256)%N as Hx by (apply N.mod_lt; lia).
  assert (Byte.to_N (base64.byte_of_N x) = x) as ->.
  { unfold base64.byte_of_N. rewrite N.mod_small by done.
    destruct (Byte.of_N x) as [y|] eqn:Hy.
    - by apply Byte.to_of_N.
    - apply Byte.of_N_None_iff in Hy. lia. }
  transitivity (base64.byte_of_N (Byte.to_N b)); [|apply byte_of_to_N].
  f_equal. subst x.
  destruct (decide (Byte.to_N b = 0%N)) as [Hb|Hb].
  - rewrite Hb. replace (Byte.to_N k + 256 - 0)%N with (Byte.to_N k + 1 * 256)%N by lia.
    rewrite N.Div0.mod_add, (N.mod_small (Byte.to_N k)) by lia.
    replace (Byte.to_N k + 256 - Byte.to_N k)%N with (0 + 1 * 256)%N by lia.
    by rewrite N.Div0.mod_add.
  - destruct (decide (Byte.to_N b <= Byte.to_N k)%N) as [Hle|Hgt].
    + replace (Byte.to_N k + 256 - Byte.to_N b)%N
        with (Byte.to_N k - Byte.to_N b + 1 * 256)%N by lia.
      rewrite N.Div0.mod_add, (N.mod_small (Byte.to_N k - Byte.to_N b)) by lia.
      replace (Byte.to_N k + 256 - (Byte.to_N k - Byte.to_N b))%N
        with (Byte.to_N b + 1 * 256)%N by lia.
      rewrite N.Div0.mod_add. by apply N.mod_small.
    + rewrite (N.mod_small (Byte.to_N k + 256 - Byte.to_N b)) by lia.
      replace (Byte.to_N k + 256 - (Byte.to_N k + 256 - Byte.to_N b))%N
        with (Byte.to_N b) by lia.
      by apply N.mod_small.
Qed.

Lemma crypto_laws : CryptoLaws Ref.crypto.
Proof.
  split. intros k m c. simpl. unfold transform.
  destruct k as [|k0 k]; [done|]. intros [= <-]. f_equal.
  rewrite <- list_fmap_compose.
  rewrite <- (list_fmap_id m) at 2. apply list_fmap_ext.
  intros i x _. apply transform_byte_involutive.
Qed.

Lemma insert_by_perm {A : Type} (less : A -> A -> bool) (x : A) (l : list A) :
  insert_by less x l ≡ₚ x :: l.
Proof.
  induction l as [|y l IH]; [done|]. simpl.
  destruct (less x y); [done|]. rewrite IH. apply Permutation_swap.
Qed.

Lemma isort_perm {A : Type} (less : A -> A -> bool) (l : list A) :
  isort less l ≡ₚ l.
Proof.
  induction l as [|x l IH]; [done|]. simpl.
  by rewrite insert_by_perm, IH.
Qed.

Lemma insert_by_sorted {A : Type} (less : A -> A -> bool) (x : A) (l : list A) :
  StrictWeakOrder less ->
  StronglySorted (fun a b => less b a = false) l ->
  StronglySorted (fun a b => less b a = false) (insert_by less x l).
Proof.
  intros Hless. induction 1 as [|y l Hs IH Hy]; simpl.
  - by repeat constructor.
  - destruct (less x y) eqn:Hxy.
    + constructor; [by constructor|].
      constructor; [by apply (less_asym less Hless)|].
      eapply Forall_impl; [exact Hy|]. intros z Hz. simpl in Hz.
      apply (less_neg_trans less Hless x y z); [|done].
      by apply (less_asym less Hless).
    + constructor; [done|].
      rewrite insert_by_perm. by constructor.
Qed.

Lemma isort_sorted {A : Type} (less : A -> A -> bool) (l : list A) :
  StrictWeakOrder less ->
  StronglySorted (fun a b => less b a = false) (isort less l).
Proof.
  intros Hless. induction l as [|x l IH]; simpl.
  - constructor.
  - by apply insert_by_sorted.
Qed.

Lemma runtime_laws : GoRuntimeLaws Ref.runtime.
Proof.
  split.
  - intros. apply isort_perm.
  - intros. by apply isort_sorted.
  - done.
Qed.

Lemma kms_unwraps (t : nat) (alias : string) :
  alias ≠ "alias/sealed" -> unwraps t alias.
Proof.
  intros Ha dk.
  change (generateDataKey t alias 64 = Ok dk ->
          exists dk',
            decryptDataKey (CiphertextBlob dk) = Ok dk'
            /\ Plaintext dk' = Plaintext dk).
  unfold generateDataKey. generalize (key_bytes t (Z.to_nat 64)) as pt.
  intros pt. destruct (decide (alias = "alias/sealed")); [done|].
  intros [= <-]. cbn [CiphertextBlob Plaintext decryptDataKey].
  eexists. split; [reflexivity|].
  cbn [Plaintext]. apply rev_involutive.
Qed.

End Ref_facts.

(** ** The package *)

Section Package_facts.

Context {codec : Codec} {kms : KMS} {crypto : Crypto} {runtime : GoRuntime}.

Import dynamodb_facts base64_facts.

Lemma filter_bool_nil {A : Type} (f : A -> bool) (l : list A) :
  (forall x, x ∈ l -> f x = false) -> List.filter f l = [].
Proof.
  induction l as [|x l IH]; intros H; [done|]. simpl.
  rewrite (H x) by (by left). apply IH. intros y Hy. apply H. by right.
Qed.

Lemma nonempty_length (s : string) : s ≠ EmptyString -> (0 < String.length s)%nat.
Proof. destruct s; [done|]. simpl. lia. Qed.

(** *** Reading *)

(** No item under the name: the query is empty. *)
Lemma GetSecret_not_found (w : World) (name version : string) :
  (forall it, it ∈ table w -> has_name name it = false) ->
  GetSecret w name version = Err ErrSecretNotFound.
Proof.
  intros Hnone. unfold GetSecret, Query.
  rewrite filter_bool_nil; [done|].
  intros it Hit. specialize (Hnone it Hit).
  destruct (decide _); [|done].
  destruct (has_key (name, version) it) eqn:Hk; [|done].
  apply has_key_true in Hk.
  assert (has_name name it = true) as Hn by (apply has_name_key; eauto).
  congruence.
Qed.

(** With no version given, the read selects the item whose sort key is
    above every other's in the order of the table. *)
Lemma GetSecret_latest (w : World) (name : string) (it : Item) :
  it ∈ table w -> has_name name it = true ->
  (forall it', it' ∈ table w -> has_name name it' = true ->
     it' = it \/ String.ltb (sort_key it') (sort_key it) = true) ->
  GetSecret w name EmptyString = (cred ← Decode it; decryptCredential cred).
Proof.
  intros Hin Hname Hmax. unfold GetSecret, Query. simpl.
  set (matching := List.filter _ _).
  assert (head (sort_desc matching) = Some it) as Hh.
  { apply sort_desc_head.
    - apply elem_of_filter_bool. done.
    - intros it' [Hit' Hn']%elem_of_filter_bool. by apply Hmax. }
  destruct (sort_desc matching) as [|z l]; [done|].
  simpl in Hh. injection Hh as ->. done.
Qed.

Lemma GetSecret_stored (w : World) (name version : string) (c : Credential) :
  version ≠ EmptyString -> stored w name version c ->
  GetSecret w name version = decryptCredential c.
Proof.
  intros Hv [(it & Hin & Hk) Hdec]. unfold GetSecret, Query.
  destruct (decide _) as [_|Hl]; [|by apply nonempty_length in Hv].
  set (matching := List.filter _ _).
  assert (it ∈ sort_desc matching) as Hit.
  { apply elem_of_sort_desc, elem_of_filter_bool. by rewrite has_key_true. }
  destruct (sort_desc matching) as [|z l] eqn:Hs.
  { by apply elem_of_nil in Hit. }
  assert (z ∈ matching) as Hz.
  { apply elem_of_sort_desc. rewrite Hs. by left. }
  apply elem_of_filter_bool in Hz as [Hz Hkz]. apply has_key_true in Hkz.
  simpl. by rewrite (Hdec z Hz Hkz).
Qed.

Lemma GetSecret_reads (w : World) (name version : string) (c : Credential) :
  reads w name version c -> GetSecret w name version = decryptCredential c.
Proof.
  unfold reads. destruct (decide (version = EmptyString)) as [->|Hv].
  - intros (it & Hin & Hn & Hmax & Hd).
    rewrite (GetSecret_latest w name it Hin Hn Hmax). by rewrite Hd.
  - by apply GetSecret_stored.
Qed.

(** *** Deleting *)

Lemma DeleteSecret_loop_spec (t t' items : list Item) :
  CodecLaws codec ->
  (forall it, it ∈ items -> exists k, item_key it = Some k) ->
  DeleteSecret_loop t items = (Ok tt, t') ->
  (forall x, x ∈ t' -> x ∈ t)
  /\ forall it x, it ∈ items -> x ∈ t' -> item_key x ≠ item_key it.
Proof.
  intros CL. revert t. induction items as [|item items IH]; intros t Hkeys Hrun.
  - simpl in Hrun. injection Hrun as <-. split; [done|].
    intros it x Hit. by apply elem_of_nil in Hit.
  - simpl in Hrun. destruct (Decode item) as [cred| |] eqn:Hd; try done.
    destruct (Hkeys item) as [[n v] Hk]; [by left|].
    destruct (Decode_key codec CL item cred n v Hd Hk) as [<- <-].
    set (t1 := List.filter _ t) in Hrun.
    destruct (IH t1) as [Hsub Hgone]; [|exact Hrun|].
    { intros it Hit. apply Hkeys. by right. }
    assert (forall x, x ∈ t1 -> x ∈ t /\ item_key x ≠ Some (Name cred, Version cred))
      as Ht1.
    { intros x [Hx Hnk]%elem_of_filter_bool. split; [done|].
      intros Hxk. apply has_key_true in Hxk. by rewrite Hxk in Hnk. }
    split.
    + intros x Hx. by apply Ht1, Hsub.
    + intros it x [->|Hit]%elem_of_cons Hx.
      * rewrite Hk. by apply Ht1, Hsub.
      * by apply Hgone.
Qed.

Lemma DeleteSecret_removes_name (w w' : World) (name : string) :
  CodecLaws codec ->
  DeleteSecret w name = (Ok tt, w') ->
  forall it, it ∈ table w' -> has_name name it = false.
Proof.
  intros CL Hdel it Hit. unfold DeleteSecret, Query in Hdel. simpl in Hdel.
  rewrite list_fmap_id in Hdel.
  set (items := sort_desc _) in Hdel.
  destruct (DeleteSecret_loop (table w) items) as [err t'] eqn:Hloop.
  injection Hdel as -> <-. simpl in Hit.
  assert (forall x, x ∈ items <-> x ∈ table w /\ has_name name x = true)
    as Hitems.
  { intros x. unfold items. by rewrite elem_of_sort_desc, elem_of_filter_bool. }
  assert (forall x, x ∈ items -> exists k, item_key x = Some k) as Hkeys.
  { intros x [_ Hx]%Hitems. apply has_name_key in Hx as [v Hv]. eauto. }
  destruct (DeleteSecret_loop_spec _ _ _ CL Hkeys Hloop) as [Hsub Hgone].
  destruct (has_name name it) eqn:Hn; [|done].
  exfalso. apply (Hgone it it); [|done|done].
  apply Hitems. split; [by apply Hsub|done].
Qed.

(** *** Writing *)

Lemma PutSecret_item_key (w : World) (alias name secret version : string)
    (data : Item) :
  CodecLaws codec ->
  PutSecret_item w alias name secret version = Ok data ->
  item_key data
  = Some (name, if decide (version = EmptyString) then "1" else version).
Proof.
  intros CL. unfold PutSecret_item.
  destruct (GenerateDataKey _ _ _) as [dk| |]; [|done..]. simpl.
  destruct (slice_to _ _) as [dataKey| |]; [|done..]. simpl.
  destruct (slice_from _ _) as [hmacKey| |]; [|done..]. simpl.
  destruct (Encrypt _ _) as [ctext| |]; [|done..]. simpl.
  intros Henc. by apply (Encode_key codec CL) in Henc.
Qed.

(** A pair already stored: the conditional write refuses the item and
    the table keeps what it has. *)
Lemma PutSecret_existing (w : World) (alias name secret version : string) :
  CodecLaws codec ->
  (exists it, it ∈ table w /\
     item_key it
     = Some (name, if decide (version = EmptyString) then "1" else version)) ->
  table (PutSecret w alias name secret version).2 = table w
  /\ (PutSecret w alias name secret version).1 ≠ Ok tt
  /\ forall data,
       PutSecret_item w alias name secret version = Ok data ->
       (PutSecret w alias name secret version).1
       = Err (AwsErr "ConditionalCheckFailedException").
Proof.
  intros CL Hex. unfold PutSecret.
  destruct (PutSecret_item w alias name secret version) as [data| |] eqn:Hitem;
    [|done..].
  pose proof (PutSecret_item_key _ _ _ _ _ _ CL Hitem) as Hk.
  apply existsb_has_key in Hex. unfold PutItem. rewrite Hk, Hex. done.
Qed.

Lemma PutSecret_item_decode (w : World) (alias name secret version : string)
    (data : Item) :
  CodecLaws codec ->
  PutSecret_item w alias name secret version = Ok data ->
  exists c,
    Decode data = Ok c /\ Name c = name
    /\ Version c = written_version version.
Proof.
  intros CL. unfold PutSecret_item.
  destruct (GenerateDataKey _ _ _) as [dk| |]; [|done..]. simpl.
  destruct (slice_to _ _) as [dataKey| |]; [|done..]. simpl.
  destruct (slice_from _ _) as [hmacKey| |]; [|done..]. simpl.
  destruct (Encrypt _ _) as [ctext| |]; [|done..]. simpl.
  intros Henc. eexists. split; [by apply (Decode_Encode codec CL)|done].
Qed.

(** A pair not yet stored: the item is appended. *)
Lemma PutSecret_success (w w' : World) (alias name secret version : string) :
  CodecLaws codec ->
  PutSecret w alias name secret version = (Ok tt, w') ->
  exists data,
    PutSecret_item w alias name secret version = Ok data
    /\ w' = {| table := table w ++ [data]; tick := S (tick w) |}.
Proof.
  intros CL. unfold PutSecret.
  destruct (PutSecret_item w alias name secret version) as [data| |] eqn:Hitem;
    [|done..].
  unfold PutItem. destruct (item_key data) as [k|]; [|done].
  destruct (existsb _ _); [done|].
  intros [= <-]. eauto.
Qed.

(** *** The round trip of a write and a read *)

Lemma string_of_bytes_of_string (s : string) :
  string_of_bytes (bytes_of_string s) = s.
Proof. apply string_of_list_byte_of_string. Qed.

Lemma slice_to_Ok (n : nat) (b b' : bytes) :
  slice_to n b = Ok b' -> (n <= length b)%nat /\ b' = take n b.
Proof. unfold slice_to. destruct (decide _); [|done]. by intros [= <-]. Qed.

Lemma slice_from_Ok (n : nat) (b b' : bytes) :
  slice_from n b = Ok b' -> (n <= length b)%nat /\ b' = drop n b.
Proof. unfold slice_from. destruct (decide _); [|done]. by intros [= <-]. Qed.

(** What [decryptCredential] does once the wrapped key is unwrapped. *)
Lemma decryptCredential_unwrapped (c : Credential) (wk : bytes) (dk : DataKey) :
  base64.DecodeString (Key c) = Ok wk ->
  DecryptDataKey wk = Ok dk ->
  (32 <= length (Plaintext dk))%nat ->
  decryptCredential c
  = (contents ← base64.DecodeString (Contents c);
     if decide (ComputeHmac256 contents (drop 32 (Plaintext dk)) ≠ Hmac c)
     then Err ErrHmacValidationFailed
     else
       secret ← Decrypt (take 32 (Plaintext dk)) contents;
       Ok {| Cred := c; Secret := string_of_bytes secret |}).
Proof.
  intros Hk Hdk Hlen. unfold decryptCredential.
  rewrite Hk. simpl. rewrite Hdk. simpl.
  unfold slice_to, slice_from.
  destruct (decide _); [|done]. done.
Qed.

Lemma PutSecret_GetSecret (w w' : World) (alias name secret version : string) :
  CodecLaws codec -> CryptoLaws crypto ->
  PutSecret w alias name secret version = (Ok tt, w') ->
  unwraps (tick w) (used_alias alias) ->
  (forall it, it ∈ table w -> has_name name it = true ->
     String.ltb (sort_key it) (written_version version) = true) ->
  exists d,
    GetSecret w' name EmptyString = Ok d
    /\ Secret d = secret
    /\ Name (Cred d) = name
    /\ Version (Cred d) = written_version version.
Proof.
  intros CL KL Hput Hunwrap Hbelow.
  destruct (PutSecret_success _ _ _ _ _ _ CL Hput) as (data & Hitem & ->).
  pose proof (PutSecret_item_key _ _ _ _ _ _ CL Hitem) as Hkey.
  fold (written_version version) in Hkey.
  assert (sort_key data = written_version version) as Hsk
    by (unfold sort_key; by rewrite Hkey).
  rewrite (GetSecret_latest _ name data); simpl.
  2:{ apply elem_of_app. right. by left. }
  2:{ apply has_name_key. eauto. }
  2:{ intros it' [Hit'|Hit']%elem_of_app Hn.
      - right. rewrite Hsk. by apply Hbelow.
      - left. by apply list_elem_of_singleton in Hit'. }
  unfold PutSecret_item in Hitem.
  fold (used_alias alias) in Hitem. fold (written_version version) in Hitem.
  destruct (GenerateDataKey _ _ _) as [dk| |] eqn:Hgen; [|done..].
  simpl in Hitem.
  destruct (slice_to _ _) as [dataKey| |] eqn:Hto; [|done..]. simpl in Hitem.
  destruct (slice_from _ _) as [hmacKey| |] eqn:Hfrom; [|done..].
  simpl in Hitem.
  destruct (Encrypt _ _) as [ctext| |] eqn:Henc; [|done..]. simpl in Hitem.
  apply slice_to_Ok in Hto as [Hlen ->].
  apply slice_from_Ok in Hfrom as [_ ->].
  destruct (Hunwrap dk Hgen) as (dk' & Hdk' & Hpt).
  rewrite (Decode_Encode codec CL _ _ Hitem). simpl.
  erewrite decryptCredential_unwrapped; cycle 1.
  { simpl. apply DecodeString_EncodeToString. }
  { exact Hdk'. }
  { by rewrite Hpt. }
  simpl. rewrite DecodeString_EncodeToString. simpl. rewrite Hpt.
  destruct (decide _) as [Hne|_]; [done|].
  rewrite (Decrypt_Encrypt crypto KL _ _ _ Henc). simpl.
  eexists. split; [done|]. simpl.
  by rewrite string_of_bytes_of_string.
Qed.

(** *** The loop of [GetAllSecrets] *)

Lemma GetAllSecrets_loop_spec
    (results : list (option DecryptedCredential)) (creds : list Credential) :
  (forall c, c ∈ creds -> decryptCredential c ≠ Panic) ->
  GetAllSecrets_loop results creds
  = Ok (results
        ++ (entry <$> List.filter (fun c => negb (skipped c)) creds)).
Proof.
  revert results. induction creds as [|c creds IH]; intros results Hnp.
  - simpl. by rewrite app_nil_r.
  - assert (forall c', c' ∈ creds -> decryptCredential c' ≠ Panic) as Hnp'.
    { intros c' Hc'. apply Hnp. by right. }
    assert (decryptCredential c ≠ Panic) as Hc by (apply Hnp; by left).
    cbn [GetAllSecrets_loop List.filter]. unfold GetAllSecrets_step.
    assert (forall rs,
              skipped c = false ->
              (Ok (rs ++ [entry c]) : Res _) ≫= (fun r => GetAllSecrets_loop r creds)
              = Ok (rs ++ (entry <$> (if negb (skipped c)
                                      then c :: List.filter (fun c => negb (skipped c)) creds
                                      else List.filter (fun c => negb (skipped c)) creds))))
      as Hkeep.
    { intros rs ->. simpl. rewrite IH by done. by rewrite <- app_assoc. }
    destruct (decryptCredential c) as [d|e|] eqn:Hd; [| |done].
    + rewrite <- Hkeep by (unfold skipped; by rewrite Hd).
      unfold entry. by rewrite Hd.
    + assert (entry c = None) as He by (unfold entry; by rewrite Hd).
      destruct e;
        try (rewrite <- Hkeep by (unfold skipped; by rewrite Hd);
             by rewrite He).
      destruct (decide (code = "AccessDeniedException")) as [->|Hne].
      * assert (skipped c = true) as -> by (unfold skipped; by rewrite Hd).
        simpl. by rewrite IH.
      * rewrite <- Hkeep; [by rewrite He|].
        unfold skipped. rewrite Hd. by apply bool_decide_eq_false_2.
Qed.

(** *** [filterLatest]: the numerically highest version of each name *)

Lemma ByVersion_Less_swo : StrictWeakOrder ByVersion_Less.
Proof.
  split; unfold ByVersion_Less; intros *.
  - rewrite Z.ltb_lt, Z.ltb_ge. lia.
  - rewrite !Z.ltb_ge. lia.
Qed.

Lemma last_with {A : Type} (P : A -> Prop) `{!forall x, Decision (P x)}
    (l : list A) (x : A) :
  x ∈ l -> P x ->
  exists pre y post,
    l = pre ++ y :: post /\ P y /\ forall z, z ∈ post -> ~ P z.
Proof.
  revert x. induction l as [|a l IH]; intros x Hin HP.
  - by apply elem_of_nil in Hin.
  - destruct (decide (Exists P l)) as [Hex|Hnex].
    + apply Exists_exists in Hex as (x' & Hx' & HP').
      destruct (IH x' Hx' HP') as (pre & y & post & -> & Hy & Hpost).
      by exists (a :: pre), y, post.
    + assert (forall z, z ∈ l -> ~ P z) as Hnone.
      { intros z Hz HPz. apply Hnex, Exists_exists. eauto. }
      apply elem_of_cons in Hin as [->|Hin].
      * by exists [], a, l.
      * by destruct (Hnone x Hin).
Qed.

Lemma remember_other (l : list Credential) (m : gmap string Credential)
    (n : string) :
  (forall c, c ∈ l -> Name c ≠ n) -> foldl remember m l !! n = m !! n.
Proof.
  revert m. induction l as [|c l IH]; intros m Hl; [done|]. simpl.
  rewrite IH by (intros c' Hc'; apply Hl; by right).
  unfold remember. apply lookup_insert_ne. apply Hl. by left.
Qed.

Lemma remember_last (pre post : list Credential) (c : Credential)
    (m : gmap string Credential) :
  (forall c', c' ∈ post -> Name c' ≠ Name c) ->
  foldl remember m (pre ++ c :: post) !! Name c = Some c.
Proof.
  intros Hpost. rewrite foldl_app. simpl.
  rewrite remember_other by done. unfold remember. apply lookup_insert_eq.
Qed.

Lemma remember_from (l : list Credential) (m : gmap string Credential)
    (n : string) (c : Credential) :
  foldl remember m l !! n = Some c ->
  m !! n = Some c \/ (c ∈ l /\ Name c = n).
Proof.
  revert m. induction l as [|a l IH]; intros m Hl; [by left|].
  simpl in Hl. apply IH in Hl as [Hl|[Hin Hn]].
  - unfold remember in Hl.
    destruct (decide (Name a = n)) as [<-|Hne].
    + rewrite lookup_insert_eq in Hl. injection Hl as ->.
      right. split; [by left|done].
    + rewrite lookup_insert_ne in Hl by done. by left.
  - right. split; [by right|done].
Qed.

(** [filterLatest] returns, for each name among the records, exactly one
    record, and no record of that name has a version that [Atoi] reads
    as a greater number. *)
Lemma filterLatest_spec (creds : list Credential) :
  GoRuntimeLaws runtime ->
  exists results,
    filterLatest creds = Ok results
    /\ (forall c, c ∈ results ->
          c ∈ creds
          /\ forall c', c' ∈ creds -> Name c' = Name c ->
               (Atoi (Version c')).1 <= (Atoi (Version c)).1)
    /\ (forall c', c' ∈ creds -> exists c, c ∈ results /\ Name c = Name c')
    /\ NoDup (Name <$> results).
Proof.
  intros RL. unfold filterLatest. eexists. split; [reflexivity|].
  set (sorted := sort_Sort ByVersion_Less creds).
  change (foldl _ ∅ sorted) with (foldl remember ∅ sorted).
  set (names := foldl remember ∅ sorted).
  assert (sorted ≡ₚ creds) as Hperm by apply (sort_Sort_perm runtime RL).
  pose proof (sort_Sort_sorted runtime RL _ ByVersion_Less creds
                ByVersion_Less_swo) as Hsorted.
  fold sorted in Hsorted.
  assert (forall k c, names !! k = Some c -> c ∈ sorted /\ Name c = k) as Hfrom.
  { intros k c Hk. apply remember_from in Hk as [Hk|Hk]; [|done].
    by rewrite lookup_empty in Hk. }
  assert (forall c, c ∈ sorted ->
            exists pre y post,
              sorted = pre ++ y :: post /\ Name y = Name c
              /\ names !! Name c = Some y
              /\ forall z, z ∈ post -> Name z ≠ Name c) as Hlast.
  { intros c Hc.
    destruct (last_with (fun x => Name x = Name c) sorted c Hc eq_refl)
      as (pre & y & post & Hs & Hy & Hpost).
    exists pre, y, post. repeat split; try done.
    unfold names. rewrite Hs, <- Hy. apply remember_last.
    intros c' Hc'. rewrite Hy. by apply Hpost. }
  assert (forall c,
            c ∈ sort_Sort ByVersion_Less (map_range names).*2
            <-> exists k, names !! k = Some c) as Hres.
  { intros c. rewrite (sort_Sort_perm runtime RL).
    rewrite (map_range_perm runtime RL). rewrite list_elem_of_fmap. split.
    - intros ([k v] & -> & Hkv). exists k. by apply elem_of_map_to_list.
    - intros (k & Hk). exists (k, c). split; [done|].
      by apply elem_of_map_to_list. }
  split; [|split].
  - intros c Hc. apply Hres in Hc as (k & Hk).
    destruct (Hfrom k c Hk) as [Hc <-]. split; [by rewrite <- Hperm|].
    intros c' Hc' Hn.
    destruct (Hlast c Hc) as (pre & y & post & Hs & Hy & Hlook & Hpost).
    assert (y = c) as -> by congruence.
    rewrite <- Hperm, Hs in Hc'.
    assert (ByVersion_Less c c' = false) as Hle.
    { apply elem_of_app in Hc' as [Hc'|Hc'].
      - rewrite Hs in Hsorted.
        apply (StronglySorted_app_1_elem_of _ pre (c :: post) c' c Hsorted);
          [done|by left].
      - apply elem_of_cons in Hc' as [->|Hc'].
        + unfold ByVersion_Less. apply Z.ltb_irrefl.
        + by destruct (Hpost c' Hc'). }
    unfold ByVersion_Less in Hle. by apply Z.ltb_ge in Hle.
  - intros c' Hc'. rewrite <- Hperm in Hc'.
    destruct (Hlast c' Hc') as (pre & y & post & Hs & Hy & Hlook & Hpost).
    exists y. split; [|done]. apply Hres. eauto.
  - rewrite (sort_Sort_perm runtime RL), (map_range_perm runtime RL).
    replace (Name <$> (map_to_list names).*2) with (map_to_list names).*1.
    + apply NoDup_fst_map_to_list.
    + rewrite <- list_fmap_compose. apply list_fmap_ext.
      intros i [k v] Hi. simpl.
      assert ((k, v) ∈ map_to_list names) as Hkv
        by (apply list_elem_of_lookup; eauto).
      apply elem_of_map_to_list in Hkv. by destruct (Hfrom k v Hkv).
Qed.

(** *** What the listings work on *)

Lemma forM_spec {A B : Type} (f : A -> Res B) (xs : list A) (ys : list B) :
  forM f xs = Ok ys -> Forall2 (fun x y => f x = Ok y) xs ys.
Proof.
  revert ys. induction xs as [|x xs IH]; intros ys; simpl.
  - intros [= <-]. constructor.
  - destruct (f x) as [y| |] eqn:Hx; [|done..]. simpl.
    destruct (forM f xs) as [ys'| |]; [|done..]. simpl.
    intros [= <-]. constructor; [done|]. by apply IH.
Qed.

(** With [allVersions], every scanned record is decrypted. *)
Lemma GetAllSecrets_creds_all (w : World) (creds : list Credential) :
  GoRuntimeLaws runtime ->
  GetAllSecrets_creds w true = Ok creds ->
  forall it, it ∈ table w ->
    exists c,
      c ∈ creds
      /\ Decode
           (project
              (Some ["name"; "version"; "key"; "contents"; "hmac";
                     "created_at"]) it) = Ok c.
Proof.
  intros RL. unfold GetAllSecrets_creds, Scan, decodeCredential. simpl.
  destruct (forM Decode _) as [all| |] eqn:Hall; [|done..]. simpl.
  intros [= <-] it Hit. apply forM_spec in Hall.
  apply (list_elem_of_fmap_2
           (project
              (Some ["name"; "version"; "key"; "contents"; "hmac";
                     "created_at"]))) in Hit.
  apply list_elem_of_lookup in Hit as [i Hi].
  destruct (Forall2_lookup_l _ _ _ _ _ Hall Hi) as (c & Hc & Hd).
  exists c. split; [|done].
  rewrite (sort_Sort_perm runtime RL). apply list_elem_of_lookup. eauto.
Qed.

(** Without [allVersions], the records kept are the numerically highest
    version of each name. *)
Lemma latest_spec (all creds : list Credential) :
  GoRuntimeLaws runtime ->
  (results ← filterLatest all; Ok (sort_Sort ByName_Less results)) = Ok creds ->
  (forall c, c ∈ creds ->
     c ∈ all
     /\ forall c', c' ∈ all -> Name c' = Name c ->
          (Atoi (Version c')).1 <= (Atoi (Version c)).1)
  /\ (forall c', c' ∈ all -> exists c, c ∈ creds /\ Name c = Name c')
  /\ NoDup (Name <$> creds).
Proof.
  intros RL.
  destruct (filterLatest_spec all RL) as (rs & -> & Hmax & Hall & Hnd).
  simpl. intros [= <-].
  split; [|split].
  - intros c Hc. rewrite (sort_Sort_perm runtime RL) in Hc. by apply Hmax.
  - intros c' Hc'. destruct (Hall c' Hc') as (c & Hc & Hn).
    exists c. by rewrite (sort_Sort_perm runtime RL).
  - by rewrite (sort_Sort_perm runtime RL).
Qed.

Lemma ListSecrets_latest (w : World) (creds : list Credential) :
  GoRuntimeLaws runtime ->
  ListSecrets w false = Ok creds ->
  exists all,
    decodeCredential
      (project (Some ["name"; "version"; "created_at"]) <$> table w) = Ok all
    /\ (forall c, c ∈ creds ->
          c ∈ all
          /\ forall c', c' ∈ all -> Name c' = Name c ->
               (Atoi (Version c')).1 <= (Atoi (Version c)).1)
    /\ (forall c', c' ∈ all -> exists c, c ∈ creds /\ Name c = Name c')
    /\ NoDup (Name <$> creds).
Proof.
  intros RL. unfold ListSecrets, Scan. simpl.
  destruct (decodeCredential _) as [all| |]; [|done..]. simpl.
  intros Hc. exists all. split; [done|]. by apply latest_spec.
Qed.

Lemma GetAllSecrets_creds_latest (w : World) (creds : list Credential) :
  GoRuntimeLaws runtime ->
  GetAllSecrets_creds w false = Ok creds ->
  exists all,
    decodeCredential
      (project
         (Some ["name"; "version"; "key"; "contents"; "hmac"; "created_at"])
       <$> table w) = Ok all
    /\ (forall c, c ∈ creds ->
          c ∈ all
          /\ forall c', c' ∈ all -> Name c' = Name c ->
               (Atoi (Version c')).1 <= (Atoi (Version c)).1)
    /\ (forall c', c' ∈ all -> exists c, c ∈ creds /\ Name c = Name c')
    /\ NoDup (Name <$> creds).
Proof.
  intros RL. unfold GetAllSecrets_creds, Scan. simpl.
  destruct (decodeCredential _) as [all| |]; [|done..]. simpl.
  intros Hc. exists all. split; [done|]. by apply latest_spec.
Qed.

(** *** The claims on reading *)

(** C6, amended: let the record a read selects differ from an authentic
    credential (one whose stored mac is the tag of its stored ciphertext)
    in its mac or in its ciphertext only, the wrapped key being one the
    key-management service unwraps to at least 32 bytes. If the mac was
    altered, [GetSecret] fails with [ErrHmacValidationFailed]. If the
    ciphertext was altered, [GetSecret] fails with the base64 error
    [CorruptInputError] when the altered text is not valid base64, and
    with [ErrHmacValidationFailed] when it decodes to bytes whose tag
    differs from the tag of the original bytes. In every case a
    credential is returned only if the tag of the decoded ciphertext
    equals the stored mac, and [ErrHmacValidationFailed] is not
    [ErrSecretNotFound]. *)
Theorem GetSecret_tampered
    (w : World) (name version : string) (c0 c : Credential)
    (wk : bytes) (dk : DataKey) (contents0 : bytes) :
  reads w name version c ->
  Key c = Key c0 ->
  base64.DecodeString (Key c0) = Ok wk ->
  DecryptDataKey wk = Ok dk ->
  (32 <= length (Plaintext dk))%nat ->
  base64.DecodeString (Contents c0) = Ok contents0 ->
  Hmac c0 = ComputeHmac256 contents0 (drop 32 (Plaintext dk)) ->
  (Contents c = Contents c0 -> Hmac c ≠ Hmac c0 ->
   GetSecret w name version = Err ErrHmacValidationFailed)
  /\ (Hmac c = Hmac c0 ->
      match base64.DecodeString (Contents c) with
      | Ok contents =>
          ComputeHmac256 contents (drop 32 (Plaintext dk))
          ≠ ComputeHmac256 contents0 (drop 32 (Plaintext dk)) ->
          GetSecret w name version = Err ErrHmacValidationFailed
      | _ => GetSecret w name version = Err CorruptInputError
      end)
  /\ (forall d,
        GetSecret w name version = Ok d ->
        exists contents,
          base64.DecodeString (Contents c) = Ok contents
          /\ ComputeHmac256 contents (drop 32 (Plaintext dk)) = Hmac c)
  /\ ErrHmacValidationFailed ≠ ErrSecretNotFound.
Proof.
  intros Hrd Hkey Hwk Hdk Hlen Hc0 Hmac0.
  rewrite (GetSecret_reads w name version c Hrd).
  rewrite <- Hkey in Hwk.
  rewrite (decryptCredential_unwrapped c wk dk Hwk Hdk Hlen).
  split; [|split; [|split]]; [| | |done].
  - intros Hcont Hmac. rewrite Hcont, Hc0. simpl.
    rewrite <- Hmac0. destruct (decide _) as [_|Heq]; [done|].
    destruct Hmac. symmetry. by apply dec_stable.
  - intros Hmac.
    destruct (DecodeString_result (Contents c)) as [[contents ->]| ->];
      [|done].
    intros Hne. simpl. rewrite Hmac, Hmac0.
    by destruct (decide _).
  - intros d.
    destruct (base64.DecodeString (Contents c)) as [contents| |]; [|done..].
    simpl. destruct (decide _) as [|Heq]; [done|].
    intros _. exists contents. split; [done|]. by apply dec_stable.
Qed.

(** *** The claims on listing *)

(** C3, amended: if the records [GetAllSecrets] goes on to decrypt
    (every scanned record when [allVersions] is true, the latest version
    of each name otherwise) include a record whose decryption fails with
    an error that is not the key-management service's
    [AccessDeniedException], and no decryption panics, then
    [GetAllSecrets] returns no error and its result list holds a nil
    entry at that record's position, the records passed over not
    counted. With [allVersions] every scanned record is among the
    records decrypted. *)
Theorem GetAllSecrets_nil_entry
    (w : World) (allVersions : bool) (creds : list Credential)
    (c : Credential) (e : error) :
  GetAllSecrets_creds w allVersions = Ok creds ->
  (forall c', c' ∈ creds -> decryptCredential c' ≠ Panic) ->
  c ∈ creds ->
  decryptCredential c = Err e ->
  e ≠ AwsErr "AccessDeniedException" ->
  (exists results,
     GetAllSecrets w allVersions = Ok results
     /\ None ∈ results
     /\ forall pre post,
          creds = pre ++ c :: post ->
          results !! length (List.filter (fun c => negb (skipped c)) pre)
          = Some None)
  /\ (allVersions = true -> GoRuntimeLaws runtime ->
      forall it, it ∈ table w ->
        exists c',
          c' ∈ creds
          /\ Decode
               (project
                  (Some ["name"; "version"; "key"; "contents"; "hmac";
                         "created_at"]) it) = Ok c').
Proof.
  intros Hcreds Hnp Hc Hd He. split.
  - unfold GetAllSecrets. rewrite Hcreds. simpl.
    rewrite GetAllSecrets_loop_spec by done. simpl.
    assert (skipped c = false) as Hsk.
    { unfold skipped. rewrite Hd. destruct e; try done.
      apply bool_decide_eq_false_2. congruence. }
    assert (entry c = None) as Hen by (unfold entry; by rewrite Hd).
    eexists. split; [reflexivity|]. split.
    + rewrite <- Hen. apply list_elem_of_fmap_2.
      apply elem_of_filter_bool. by rewrite Hsk.
    + intros pre post ->. rewrite List.filter_app, fmap_app.
      cbn [List.filter]. rewrite Hsk. cbn [negb]. rewrite fmap_cons, Hen.
      rewrite <- (length_fmap entry). apply list_lookup_middle. done.
  - intros -> RL. by apply GetAllSecrets_creds_all.
Qed.

(** *** The claims on writing and deleting *)

(** C4: when a record with the pair (name, version) is already stored, a
    second [PutSecret] with that name and explicit version does not
    succeed and leaves the table, hence the stored record, as it was; as
    soon as the call reaches the write (the data key is generated, the
    secret encrypted and the credential encoded), the error it returns is
    the store's refusal of the conditional write,
    [ConditionalCheckFailedException], which the spec names
    DuplicateVersion. *)
Theorem PutSecret_duplicate_version
    (w : World) (alias name secret version : string) :
  CodecLaws codec ->
  version ≠ EmptyString ->
  (exists it, it ∈ table w /\ item_key it = Some (name, version)) ->
  table (PutSecret w alias name secret version).2 = table w
  /\ (PutSecret w alias name secret version).1 ≠ Ok tt
  /\ forall data,
       PutSecret_item w alias name secret version = Ok data ->
       (PutSecret w alias name secret version).1
       = Err (AwsErr "ConditionalCheckFailedException").
Proof.
  intros CL Hv Hex. apply PutSecret_existing; [done|].
  by destruct (decide (version = EmptyString)).
Qed.

(** C10: a [PutSecret] whose version is the empty string behaves as the
    same call with version ["1"]: when it succeeds the item it appends to
    the table has the key (name, ["1"]) and decodes to a credential of
    version ["1"]; when the name already has a version ["1"] it does not
    succeed, the table is unchanged, and a call that reaches the write
    fails the conditional write. *)
Theorem PutSecret_empty_version (w : World) (alias name secret : string) :
  CodecLaws codec ->
  PutSecret w alias name secret EmptyString = PutSecret w alias name secret "1"
  /\ (forall w',
        PutSecret w alias name secret EmptyString = (Ok tt, w') ->
        exists data c,
          table w' = table w ++ [data]
          /\ item_key data = Some (name, "1")
          /\ Decode data = Ok c /\ Name c = name /\ Version c = "1")
  /\ ((exists it, it ∈ table w /\ item_key it = Some (name, "1")) ->
      table (PutSecret w alias name secret EmptyString).2 = table w
      /\ (PutSecret w alias name secret EmptyString).1 ≠ Ok tt
      /\ forall data,
           PutSecret_item w alias name secret EmptyString = Ok data ->
           (PutSecret w alias name secret EmptyString).1
           = Err (AwsErr "ConditionalCheckFailedException")).
Proof.
  intros CL. split; [reflexivity|]. split.
  - intros w' Hput.
    destruct (PutSecret_success _ _ _ _ _ _ CL Hput) as (data & Hitem & ->).
    destruct (PutSecret_item_decode _ _ _ _ _ _ CL Hitem) as (c & Hd & Hn & Hv).
    exists data, c. repeat split; try done.
    by rewrite (PutSecret_item_key _ _ _ _ _ _ CL Hitem).
  - intros Hex. by apply PutSecret_existing.
Qed.

(** C8: after a successful [DeleteSecret] of a name, [GetSecret] of that
    name returns [ErrSecretNotFound] for every version, the versions
    stored before and the empty version among them. *)
Theorem DeleteSecret_then_GetSecret (w w' : World) (name : string) :
  CodecLaws codec ->
  DeleteSecret w name = (Ok tt, w') ->
  forall version, GetSecret w' name version = Err ErrSecretNotFound.
Proof.
  intros CL Hdel version. apply GetSecret_not_found.
  by apply (DeleteSecret_removes_name w w' name CL).
Qed.

(** X22: the round trip where the latest version read is the one
    written: if [PutSecret] of a name and secret succeeds, the
    key-management service unwraps the data key it generated, and every
    version stored under the name before the call is below the written
    version (in the order of the sort key and as a number), then
    [GetSecret] of the name with no version on the resulting table
    returns a credential whose [Secret] is the secret that was put. *)
Theorem PutSecret_then_GetSecret
    (w w' : World) (alias name secret version : string) :
  CodecLaws codec -> CryptoLaws crypto ->
  PutSecret w alias name secret version = (Ok tt, w') ->
  unwraps (tick w) (used_alias alias) ->
  (forall it, it ∈ table w -> has_name name it = true ->
     version_below (sort_key it) (written_version version)) ->
  exists d, GetSecret w' name EmptyString = Ok d /\ Secret d = secret.
Proof.
  intros CL KL Hput Hun Hbelow.
  destruct (PutSecret_GetSecret w w' alias name secret version CL KL Hput Hun)
    as (d & Hget & Hs & _).
  - intros it Hit Hn. by destruct (Hbelow it Hit Hn).
  - eauto.
Qed.

(** *** [ResolveVersion] *)

Lemma ResolveVersion_explicit (w : World) (name : string) (version : Z) :
  version ≠ 0 -> ResolveVersion w name version = Ok (Itoa version).
Proof. intros Hv. unfold ResolveVersion. by destruct (decide _). Qed.

Lemma ResolveVersion_fresh (w : World) (name : string) :
  (forall it, it ∈ table w -> has_name name it = false) ->
  ResolveVersion w name 0 = Ok "1".
Proof.
  intros Hnone. unfold ResolveVersion, GetHighestVersion, Query.
  destruct (decide (0 ≠ 0)); [done|].
  by rewrite filter_bool_nil.
Qed.

Lemma lookup_project (names : list string) (it : Item) (k : string) :
  k ∈ names -> project (Some names) it !! k = it !! k.
Proof.
  intros Hk. unfold project. rewrite map_lookup_filter.
  destruct (it !! k) as [x|]; [|done]. simpl.
  rewrite option_guard_True; [done|]. by apply bool_decide_pack.
Qed.

(** With no explicit version, the version computed is one more than the
    version that is first in the descending order of the sort key. *)
Lemma ResolveVersion_next (w : World) (name v : string) (it : Item) (n : Z) :
  it ∈ table w -> item_key it = Some (name, v) ->
  (forall it', it' ∈ table w -> has_name name it' = true ->
     it' = it \/ String.ltb (sort_key it') v = true) ->
  Atoi v = (n, None) ->
  ResolveVersion w name 0 = Ok (Itoa (wrap (n + 1))).
Proof.
  intros Hin Hk Hmax Hn. unfold ResolveVersion, GetHighestVersion, Query.
  destruct (decide (0 ≠ 0)); [done|]. simpl.
  set (matching := List.filter _ _).
  assert (sort_key it = v) as Hsk by (unfold sort_key; by rewrite Hk).
  assert (head (sort_desc matching) = Some it) as Hh.
  { apply sort_desc_head.
    - apply elem_of_filter_bool. split; [done|]. apply has_name_key. eauto.
    - intros it' [Hit' Hn']%elem_of_filter_bool. rewrite Hsk. by apply Hmax. }
  destruct (sort_desc matching) as [|z l]; [done|].
  simpl in Hh. injection Hh as ->. simpl.
  change (filter _ it) with (project (Some ["version"]) it).
  rewrite lookup_project by (by left).
  unfold item_key in Hk.
  destruct (it !! "name") as [[nm|]|]; try done.
  destruct (it !! "version") as [[vs|]|]; try done.
  injection Hk as -> ->. simpl. by rewrite Hn.
Qed.

(** *** Checking the hypotheses on a given table *)

Lemma holdsb_true (w : World) (name version : string) :
  holdsb w name version = true ->
  exists it, it ∈ table w /\ item_key it = Some (name, version).
Proof. unfold holdsb. by rewrite existsb_has_key. Qed.

Lemma storedb_true (w : World) (name version : string) (c : Credential) :
  storedb w name version c = true -> stored w name version c.
Proof.
  unfold storedb. intros [Hex Hall]%andb_prop. split.
  - by apply holdsb_true.
  - intros it Hit Hk. rewrite forallb_forall in Hall.
    apply list_elem_of_In, Hall in Hit.
    apply has_key_true in Hk. rewrite Hk in Hit.
    by apply bool_decide_eq_true in Hit.
Qed.

Lemma all_belowb_true (w : World) (name v : string) :
  all_belowb w name v = true ->
  forall it, it ∈ table w -> has_name name it = true ->
    version_below (sort_key it) v.
Proof.
  unfold all_belowb. rewrite forallb_forall. intros Hall it Hit Hn.
  apply list_elem_of_In, Hall in Hit. rewrite Hn in Hit. simpl in Hit.
  apply andb_prop in Hit as [Hlt Hnum]. split; [done|].
  by apply Z.ltb_lt.
Qed.

Lemma no_panicb_true (creds : list Credential) :
  no_panicb creds = true ->
  forall c, c ∈ creds -> decryptCredential c ≠ Panic.
Proof.
  unfold no_panicb. rewrite forallb_forall. intros Hall c Hc.
  apply list_elem_of_In, Hall in Hc.
  apply negb_true_iff in Hc. by apply bool_decide_eq_false in Hc.
Qed.

End Package_facts.

(** ** The package on given tables *)

Module Runs.
Import Ref Ref_facts.

(** C1: on the table that holds versions ["1"] to ["11"] of one name,
    [ListSecrets] and [GetAllSecrets] without [allVersions] return the
    record of version ["11"], the maximum of the versions read as
    integers, whereas [GetSecret] with no version returns the record of
    version ["9"], the greatest version string in the byte order of the
    sort key. *)
Theorem latest_of_eleven_versions :
  item_key <$> table w11
  = (fun i => Some ("db/password", Itoa (Z.of_nat i))) <$> seq 1 11
  /\ (exists d,
        GetSecret w11 "db/password" EmptyString = Ok d
        /\ Version (Cred d) = "9" /\ Secret d = "secret-9")
  /\ (exists c, ListSecrets w11 false = Ok [c] /\ Version c = "11")
  /\ (exists d,
        GetAllSecrets w11 false = Ok [Some d]
        /\ Version (Cred d) = "11" /\ Secret d = "secret-11").
Proof.
  split; [vm_compute; reflexivity|].
  split; [|split]; vm_compute; eexists; repeat split.
Qed.

(** C7: on the table that holds versions ["1"] to ["10"] of one name,
    [ResolveVersion] with no explicit version returns ["10"], one more
    than ["9"], the version first in the byte order of the sort key; the
    numerically highest version plus one is ["11"]. Version ["10"] is
    already stored, and the [PutSecret] that follows is refused. *)
Theorem ResolveVersion_after_ten_versions :
  item_key <$> table w10
  = (fun i => Some ("db/password", Itoa (Z.of_nat i))) <$> seq 1 10
  /\ ResolveVersion w10 "db/password" 0 = Ok "10"
  /\ Itoa (foldr Z.max 0 ((fun it => (Atoi (sort_key it)).1) <$> table w10) + 1)
     = "11"
  /\ holdsb w10 "db/password" "10" = true
  /\ (PutSecret w10 EmptyString "db/password" "s3cr3t" "10").1
     = Err (AwsErr "ConditionalCheckFailedException").
Proof. repeat split; vm_compute; reflexivity. Qed.

(** C2: on a table with two names, the stored mac of one of them
    replaced, the decryption of that record fails with
    [ErrHmacValidationFailed], and [GetAllSecrets] does not abort with
    that error: it returns no error and a list whose entry for the record
    is nil. *)
Theorem GetAllSecrets_integrity_failure :
  GetSecret w_forged "db/password" "1" = Err ErrHmacValidationFailed
  /\ (exists d,
        GetAllSecrets w_forged true = Ok [Some d; None]
        /\ Name (Cred d) = "api/key" /\ Secret d = "k")
  /\ (exists d,
        GetAllSecrets w_forged false = Ok [Some d; None]
        /\ Name (Cred d) = "api/key" /\ Secret d = "k").
Proof.
  split; [vm_compute; reflexivity|].
  split; vm_compute; eexists; repeat split.
Qed.

(** The other half of C2: a record whose data key the key-management
    service refuses to unwrap is passed over and the listing goes on. *)
Example GetAllSecrets_access_denied :
  GetSecret w_sealed "ops/token" "1" = Err (AwsErr "AccessDeniedException")
  /\ length (table w_sealed) = 2%nat
  /\ exists d,
       GetAllSecrets w_sealed true = Ok [Some d]
       /\ Name (Cred d) = "api/key" /\ Secret d = "k".
Proof.
  do 2 (split; [vm_compute; reflexivity|]).
  vm_compute. eexists. repeat split.
Qed.

(** C3 as stated fails: the scan holds a record (version ["1"] of the
    name) whose decryption fails with [ErrHmacValidationFailed], and
    [GetAllSecrets] without [allVersions] returns a list with no nil
    entry, because the record is superseded by version ["2"]. *)
Lemma GetAllSecrets_superseded_record :
  Decode <$> table w_stale !! 0%nat = Some (Ok (fetch w_stale 0))
  /\ Version (fetch w_stale 0) = "1"
  /\ decryptCredential (fetch w_stale 0) = Err ErrHmacValidationFailed
  /\ exists d,
       GetAllSecrets w_stale false = Ok [Some d]
       /\ Version (Cred d) = "2" /\ Secret d = "secret-2".
Proof.
  do 3 (split; [vm_compute; reflexivity|]).
  vm_compute. eexists. repeat split.
Qed.

(** A write below a stored version: the name holds version ["2"];
    [PutSecret] with no version writes version ["1"] and succeeds;
    [GetSecret] with no version then returns the secret of version
    ["2"]. *)
Lemma PutSecret_below_stored_version :
  (PutSecret w_old EmptyString "db/password" "s3cr3t" EmptyString).1 = Ok tt
  /\ exists d,
       GetSecret
         (PutSecret w_old EmptyString "db/password" "s3cr3t" EmptyString).2
         "db/password" EmptyString = Ok d
       /\ Version (Cred d) = "2"
       /\ Secret d = "old".
Proof.
  split; [vm_compute; reflexivity|].
  vm_compute. eexists. repeat split.
Qed.

(** C6 as stated fails: the stored ciphertext is ["jc2djs2M"]; with its
    first byte replaced (["!c2djs2M"]) [GetSecret] fails with the base64
    error [CorruptInputError], not with [ErrHmacValidationFailed]. *)
Lemma GetSecret_garbled_ciphertext :
  (exists d,
     GetSecret w_one "db/password" "1" = Ok d
     /\ Contents (Cred d) = "jc2djs2M" /\ Secret d = "s3cr3t")
  /\ Contents (fetch w_garbled 0) = "!c2djs2M"
  /\ GetSecret w_garbled "db/password" "1" = Err CorruptInputError
  /\ GetSecret w_garbled "db/password" EmptyString = Err CorruptInputError
  /\ Err CorruptInputError ≠ Err (A := DecryptedCredential) ErrHmacValidationFailed.
Proof.
  split; [vm_compute; eexists; repeat split|].
  repeat split; try (vm_compute; reflexivity). discriminate.
Qed.

(** A byte of a stored ciphertext altered and the read still succeeds:
    the decoder does not look at the unused low bits of the last sextet,
    so ["vx=="] decodes to the bytes of ["vw=="]. *)
Example GetSecret_altered_padding_bits :
  Contents (fetch w_byte 0) = "vw=="
  /\ Contents (fetch w_byte_altered 0) = "vx=="
  /\ exists d, GetSecret w_byte_altered "k" "1" = Ok d /\ Secret d = "A".
Proof. repeat split; try (vm_compute; reflexivity). vm_compute. eexists. repeat split. Qed.

(** The second write of a stored pair. *)
Lemma PutSecret_duplicate_version_witness :
  holdsb w_one "db/password" "1" = true
  /\ table (PutSecret w_one EmptyString "db/password" "other" "1").2
     = table w_one
  /\ (PutSecret w_one EmptyString "db/password" "other" "1").1
     = Err (AwsErr "ConditionalCheckFailedException").
Proof.
  split; [vm_compute; reflexivity|].
  destruct (PutSecret_duplicate_version w_one EmptyString "db/password"
              "other" "1") as (Htable & _ & Herr).
  - exact codec_laws.
  - discriminate.
  - apply holdsb_true. vm_compute. reflexivity.
  - split; [exact Htable|]. eapply Herr. vm_compute. reflexivity.
Defined.

(** A write with no version on an empty table. *)
Lemma PutSecret_empty_version_witness :
  PutSecret empty EmptyString "db/password" "s3cr3t" EmptyString
  = PutSecret empty EmptyString "db/password" "s3cr3t" "1"
  /\ exists data c,
       table (PutSecret empty EmptyString "db/password" "s3cr3t" EmptyString).2
       = [data]
       /\ item_key data = Some ("db/password", "1")
       /\ Decode data = Ok c /\ Version c = "1".
Proof.
  destruct (PutSecret_empty_version empty EmptyString "db/password" "s3cr3t"
              codec_laws) as (Heq & Hok & _).
  split; [exact Heq|].
  destruct (Hok (PutSecret empty EmptyString "db/password" "s3cr3t"
                   EmptyString).2)
    as (data & c & Ht & Hk & Hd & _ & Hv).
  - vm_compute. reflexivity.
  - exists data, c. repeat split; assumption.
Defined.

(** Deleting the name that holds eleven versions. *)
Lemma DeleteSecret_then_GetSecret_witness :
  DeleteSecret w11 "db/password" = (Ok tt, {| table := []; tick := 11 |})
  /\ forall version,
       GetSecret {| table := []; tick := 11 |} "db/password" version
       = Err ErrSecretNotFound.
Proof.
  split; [vm_compute; reflexivity|].
  apply (DeleteSecret_then_GetSecret w11 _ "db/password" codec_laws).
  vm_compute. reflexivity.
Defined.

(** Version ["3"] written above versions ["1"] and ["2"]. *)
Lemma PutSecret_then_GetSecret_witness :
  (PutSecret (put_versions "db/password" 2 empty) EmptyString "db/password"
     "s3cr3t" "3").1 = Ok tt
  /\ exists d,
       GetSecret
         (PutSecret (put_versions "db/password" 2 empty) EmptyString
            "db/password" "s3cr3t" "3").2
         "db/password" EmptyString = Ok d
       /\ Secret d = "s3cr3t".
Proof.
  split; [vm_compute; reflexivity|].
  apply (PutSecret_then_GetSecret (put_versions "db/password" 2 empty) _
           EmptyString "db/password" "s3cr3t" "3" codec_laws crypto_laws).
  - vm_compute. reflexivity.
  - apply kms_unwraps. discriminate.
  - apply all_belowb_true. vm_compute. reflexivity.
Defined.

(** The read of the record whose mac was replaced. *)
Lemma GetSecret_tampered_witness :
  GetSecret w_forged "db/password" "1" = Err ErrHmacValidationFailed.
Proof.
  refine (proj1
            (GetSecret_tampered w_forged "db/password" "1"
               (fetch w_two 1) (fetch w_forged 1)
               (bytes_of (base64.DecodeString (Key (fetch w_two 1))))
               {| CiphertextBlob :=
                    bytes_of (base64.DecodeString (Key (fetch w_two 1)));
                  Plaintext := key_bytes 1 64 |}
               (bytes_of (base64.DecodeString (Contents (fetch w_two 1))))
               _ _ _ _ _ _ _) _ _).
  - unfold reads. destruct (decide _); [discriminate|].
    apply storedb_true. vm_compute. reflexivity.
  - vm_compute. reflexivity.
  - vm_compute. reflexivity.
  - vm_compute. reflexivity.
  - apply Nat.leb_le. vm_compute. reflexivity.
  - vm_compute. reflexivity.
  - vm_compute. reflexivity.
  - vm_compute. reflexivity.
  - vm_compute. discriminate.
Defined.

(** The listing of the table whose second record fails the integrity
    check. *)
Lemma GetAllSecrets_nil_entry_witness :
  exists results,
    GetAllSecrets w_forged true = Ok results
    /\ None ∈ results
    /\ results !! 1%nat = Some None.
Proof.
  destruct (GetAllSecrets_nil_entry w_forged true
              [fetch w_forged 0; fetch w_forged 1] (fetch w_forged 1)
              ErrHmacValidationFailed)
    as [(results & Hres & Hin & Hpos) _].
  - vm_compute. reflexivity.
  - apply no_panicb_true. vm_compute. reflexivity.
  - right. left.
  - vm_compute. reflexivity.
  - discriminate.
  - exists results. split; [done|]. split; [done|].
    apply (Hpos [fetch w_forged 0] []). reflexivity.
Defined.

End Runs.

(** * Further properties *)

(** ** The byte order of strings and the value of numerals *)

Module order_facts.

Lemma compare_not_Gt_trans (s t u : string) :
  String.compare s t ≠ Gt -> String.compare t u ≠ Gt ->
  String.compare s u ≠ Gt.
Proof.
  revert t u. induction s as [|a s IH]; intros [|b t] [|c u]; simpl; try done.
  unfold Ascii.compare.
  destruct (N.compare_spec (N_of_ascii a) (N_of_ascii b)) as [Hab|Hab|Hab],
           (N.compare_spec (N_of_ascii b) (N_of_ascii c)) as [Hbc|Hbc|Hbc],
           (N.compare_spec (N_of_ascii a) (N_of_ascii c)) as [Hac|Hac|Hac];
    try done; try lia.
  apply IH.
Qed.

Lemma ltb_false_iff (s t : string) :
  String.ltb t s = false <-> String.compare s t ≠ Gt.
Proof.
  unfold String.ltb. rewrite (String.compare_antisym s t).
  destruct (String.compare t s); simpl; split; done.
Qed.

Lemma ltb_neg_trans (a b c : string) :
  String.ltb b a = false -> String.ltb c b = false -> String.ltb c a = false.
Proof.
  rewrite !ltb_false_iff. apply compare_not_Gt_trans.
Qed.

Lemma ltb_irrefl (s : string) : String.ltb s s = false.
Proof.
  unfold String.ltb.
  assert (String.compare s s = Eq) as ->; [|done].
  induction s as [|a s IH]; simpl; [done|].
  unfold Ascii.compare. by rewrite N.compare_refl.
Qed.

(** The head of a descending query: nothing in the list is above it. *)
Lemma sort_desc_head_top (l : list Item) (z : Item) :
  head (sort_desc l) = Some z ->
  z ∈ l /\ forall x, x ∈ l -> String.ltb (sort_key z) (sort_key x) = false.
Proof.
  revert z. induction l as [|a l IH]; intros z; [done|]. simpl.
  destruct (sort_desc l) as [|y l'] eqn:Hs; simpl.
  - intros [= <-]. split; [by left|].
    assert (l = []) as ->.
    { apply Permutation_nil_r. by rewrite <- (dynamodb_facts.sort_desc_perm l), Hs. }
    intros x ->%list_elem_of_singleton. apply ltb_irrefl.
  - destruct (IH y eq_refl) as [Hy Htop].
    destruct (String.ltb (sort_key a) (sort_key y)) eqn:Hay; simpl.
    + intros [= <-]. split; [by right|].
      intros x [->|Hx]%elem_of_cons; [|by apply Htop].
      by apply dynamodb_facts.ltb_asym.
    + intros [= <-]. split; [by left|].
      intros x [->|Hx]%elem_of_cons; [apply ltb_irrefl|].
      apply (ltb_neg_trans _ (sort_key y)); [by apply Htop|done].
Qed.

Lemma digit_of_Some (c : ascii) (d : Z) :
  digit_of c = Some d ->
  d = Z.of_N (N_of_ascii c) - 48 /\ 0 <= d <= 9.
Proof.
  unfold digit_of. destruct (_ && _) eqn:Hr; [|done].
  intros [= <-]. apply andb_prop in Hr as [H1 H2]. lia.
Qed.

Lemma parse_digits_value (s : string) (acc : Z) :
  digits_only s = true ->
  parse_digits acc s
  = Some (acc * 10 ^ Z.of_nat (String.length s) + numeral_value s)
  /\ 0 <= numeral_value s < 10 ^ Z.of_nat (String.length s).
Proof.
  revert acc. induction s as [|c s IH]; intros acc Hd.
  - unfold numeral_value. simpl. split; [f_equal; lia|lia].
  - unfold digits_only in Hd. simpl in Hd.
    apply andb_prop in Hd as [Hc Hs].
    apply bool_decide_eq_true in Hc as [d Hc].
    destruct (digit_of_Some c d Hc) as [_ Hd09].
    destruct (IH (10 * acc + d) Hs) as [Hacc Hrange].
    destruct (IH (10 * 0 + d) Hs) as [H0 _].
    assert (numeral_value (String c s)
            = d * 10 ^ Z.of_nat (String.length s) + numeral_value s) as Hv.
    { unfold numeral_value at 1. cbn [parse_digits]. rewrite Hc, H0.
      simpl. lia. }
    cbn [parse_digits String.length]. rewrite Hc, Hacc, Hv.
    rewrite Nat2Z.inj_succ, Z.pow_succ_r by lia.
    split; [f_equal; lia|nia].
Qed.

Lemma compare_numerals (s t : string) :
  digits_only s = true -> digits_only t = true ->
  String.length s = String.length t ->
  String.compare s t = (numeral_value s ?= numeral_value t).
Proof.
  revert t. induction s as [|c s IH]; intros [|d t] Hs Ht Hlen;
    try done.
  pose proof (parse_digits_value (String c s) 0 Hs) as [_ Hvs].
  unfold digits_only in Hs, Ht. simpl in Hs, Ht.
  apply andb_prop in Hs as [Hc Hs]. apply andb_prop in Ht as [Hd Ht].
  apply bool_decide_eq_true in Hc as [dc Hc].
  apply bool_decide_eq_true in Hd as [dd Hd].
  destruct (digit_of_Some c dc Hc) as [Hdc _].
  destruct (digit_of_Some d dd Hd) as [Hdd _].
  injection Hlen as Hlen.
  destruct (parse_digits_value s (10 * 0 + dc) Hs) as [Hps Hrs].
  destruct (parse_digits_value t (10 * 0 + dd) Ht) as [Hpt Hrt].
  assert (numeral_value (String c s)
          = dc * 10 ^ Z.of_nat (String.length s) + numeral_value s) as ->.
  { unfold numeral_value at 1. cbn [parse_digits]. rewrite Hc, Hps.
    simpl. lia. }
  assert (numeral_value (String d t)
          = dd * 10 ^ Z.of_nat (String.length s) + numeral_value t) as ->.
  { unfold numeral_value at 1. cbn [parse_digits]. rewrite Hd, Hpt.
    simpl. rewrite Hlen. lia. }
  rewrite <- Hlen in Hrt.
  set (P := 10 ^ Z.of_nat (String.length s)) in *.
  simpl. unfold Ascii.compare.
  destruct (N.compare_spec (N_of_ascii c) (N_of_ascii d)) as [Hcd|Hcd|Hcd].
  - assert (dc = dd) as -> by lia.
    rewrite (IH t Hs Ht Hlen). symmetry. apply Z.add_compare_mono_l.
  - symmetry. apply Z.compare_lt_iff. nia.
  - symmetry. apply Z.compare_gt_iff. nia.
Qed.

Lemma is_numeral_digits (s : string) :
  is_numeral s = true -> s ≠ EmptyString /\ digits_only s = true.
Proof.
  unfold is_numeral. intros [Hne Hd]%andb_prop. split; [|done].
  apply negb_true_iff in Hne. by apply bool_decide_eq_false in Hne.
Qed.

(** Among numerals of one width the byte order is the numeric order. *)
Lemma ltb_numerals (s t : string) :
  is_numeral s = true -> is_numeral t = true ->
  String.length s = String.length t ->
  String.ltb s t = (numeral_value s <? numeral_value t).
Proof.
  intros [_ Hs]%is_numeral_digits [_ Ht]%is_numeral_digits Hlen.
  unfold String.ltb, Z.ltb. by rewrite compare_numerals.
Qed.

(** Reading digits that stay within 64 bits. *)
Lemma ParseUint_digits (s : string) (n : Z) :
  digits_only s = true -> 0 <= n ->
  n * 10 ^ Z.of_nat (String.length s) + numeral_value s <= maxUint64 ->
  ParseUint n s
  = (n * 10 ^ Z.of_nat (String.length s) + numeral_value s, None).
Proof.
  revert n. induction s as [|c s IH]; intros n Hd Hn Hmax.
  - unfold numeral_value. simpl. f_equal. lia.
  - destruct (parse_digits_value (String c s) 0 Hd) as [Hp _].
    unfold digits_only in Hd. simpl in Hd.
    apply andb_prop in Hd as [Hc Hs].
    apply bool_decide_eq_true in Hc as [d Hc].
    destruct (digit_of_Some c d Hc) as [_ Hd09].
    destruct (parse_digits_value s (10 * 0 + d) Hs) as [H0 Hr].
    assert (numeral_value (String c s)
            = d * 10 ^ Z.of_nat (String.length s) + numeral_value s) as Hv.
    { unfold numeral_value at 1. cbn [parse_digits]. rewrite Hc, H0.
      simpl. lia. }
    rewrite Hv in Hmax. cbn [String.length] in Hmax.
    rewrite Nat2Z.inj_succ, Z.pow_succ_r in Hmax by lia.
    set (P := 10 ^ Z.of_nat (String.length s)) in *.
    assert (0 < P) as HP by (apply Z.pow_pos_nonneg; lia).
    assert (10 * n + d <= maxUint64) as Hn1 by nia.
    cbn [ParseUint]. rewrite Hc.
    assert ((cutoff <=? n) = false) as ->.
    { apply Z.leb_gt. unfold cutoff.
      assert (n <= maxUint64 / 10) by (apply Z.div_le_lower_bound; lia).
      lia. }
    assert ((maxUint64 <? 10 * n + d) = false) as -> by (apply Z.ltb_ge; lia).
    rewrite IH; [|done|lia|fold P; nia].
    rewrite Hv. cbn [String.length].
    rewrite Nat2Z.inj_succ, Z.pow_succ_r by lia. fold P. f_equal. lia.
Qed.

(** [Atoi] reads a numeral of at most 18 digits as its value. *)
Lemma Atoi_numeral (s : string) :
  is_numeral s = true -> (String.length s <= 18)%nat ->
  Atoi s = (numeral_value s, None) /\ 0 <= numeral_value s < 10 ^ 18.
Proof.
  intros [Hne Hd]%is_numeral_digits Hlen.
  destruct (parse_digits_value s 0 Hd) as [_ Hr].
  assert (10 ^ Z.of_nat (String.length s) <= 10 ^ 18) as Hpow
    by (apply Z.pow_le_mono_r; lia).
  split; [|lia].
  pose proof (ParseUint_digits s 0 Hd) as Hp.
  rewrite Z.mul_0_l, Z.add_0_l in Hp.
  destruct s as [|c s]; [done|].
  assert (Ascii.eqb c "-" = false /\ Ascii.eqb c "+" = false) as [Hm Hpl].
  { unfold digits_only in Hd. simpl in Hd. apply andb_prop in Hd as [Hc _].
    apply bool_decide_eq_true in Hc as [d Hc].
    split; apply Ascii.eqb_neq; intros ->; discriminate. }
  unfold Atoi. rewrite Hm, Hpl, Hp; [|lia|unfold maxUint64; lia].
  assert ((2 ^ 63 <=? numeral_value (String c s)) = false) as ->
    by (apply Z.leb_gt; lia).
  done.
Qed.

Lemma StronglySorted_weaken {A : Type} (R R' : A -> A -> Prop) (l : list A) :
  (forall a b, R a b -> R' a b) -> StronglySorted R l -> StronglySorted R' l.
Proof.
  intros HR. induction 1 as [|a l _ IH Ha]; constructor; [done|].
  eapply Forall_impl; [exact Ha|]. intros b. apply HR.
Qed.

Lemma wrap_small (z : Z) : 0 <= z <= 10 ^ 18 -> wrap z = z.
Proof.
  intros Hz. unfold wrap. rewrite Z.mod_small; lia.
Qed.

End order_facts.

(** ** Reading and listing *)

Section More_facts.

Context {codec : Codec} {kms : KMS} {crypto : Crypto} {runtime : GoRuntime}.

Import dynamodb_facts base64_facts order_facts.

Lemma ByName_Less_swo : StrictWeakOrder ByName_Less.
Proof.
  split; unfold ByName_Less; intros *.
  - apply ltb_asym.
  - apply ltb_neg_trans.
Qed.

(** X1: [ByVersion.Less] and [ByName.Less] are orderings [sort.Sort] can
    work with: asymmetric, and "not less" is transitive. *)
Theorem Less_strict_weak_orders :
  StrictWeakOrder ByVersion_Less /\ StrictWeakOrder ByName_Less.
Proof. split; [apply ByVersion_Less_swo|apply ByName_Less_swo]. Qed.

(** X2: [filterLatest] returns records of its input, exactly one for each
    name that occurs, each with a version that no record of the same name
    exceeds as a number, in ascending order of version. *)
Theorem filterLatest_one_per_name (creds : list Credential) :
  GoRuntimeLaws runtime ->
  exists results,
    filterLatest creds = Ok results
    /\ (forall c, c ∈ results ->
          c ∈ creds
          /\ forall c', c' ∈ creds -> Name c' = Name c ->
               (Atoi (Version c')).1 <= (Atoi (Version c)).1)
    /\ (forall c', c' ∈ creds -> exists c, c ∈ results /\ Name c = Name c')
    /\ NoDup (Name <$> results)
    /\ StronglySorted
         (fun a b => (Atoi (Version a)).1 <= (Atoi (Version b)).1) results.
Proof.
  intros RL.
  destruct (filterLatest_spec creds RL) as (rs & Hrs & Hmax & Hall & Hnd).
  exists rs. repeat split; try done; try (by apply Hmax).
  unfold filterLatest in Hrs. injection Hrs as <-.
  eapply StronglySorted_weaken;
    [|apply (sort_Sort_sorted runtime RL), ByVersion_Less_swo].
  intros a b Hab. unfold ByVersion_Less in Hab. by apply Z.ltb_ge in Hab.
Qed.

(** X3: [ListSecrets] with [allVersions] lists every scanned record
    exactly once, in ascending order of name. *)
Theorem ListSecrets_all_versions (w : World) (creds : list Credential) :
  GoRuntimeLaws runtime ->
  ListSecrets w true = Ok creds ->
  exists all,
    decodeCredential
      (project (Some ["name"; "version"; "created_at"]) <$> table w) = Ok all
    /\ creds ≡ₚ all
    /\ StronglySorted
         (fun a b => String.ltb (Name b) (Name a) = false) creds.
Proof.
  intros RL. unfold ListSecrets, Scan. simpl.
  destruct (decodeCredential _) as [all| |]; [|done..]. simpl.
  intros [= <-]. exists all. split; [done|]. split.
  - apply (sort_Sort_perm runtime RL).
  - apply (sort_Sort_sorted runtime RL _ ByName_Less), ByName_Less_swo.
Qed.

(** X4: [ListSecrets] without [allVersions] lists one record for each
    stored name, a record whose version no record of that name exceeds as
    a number, in ascending order of name. *)
Theorem ListSecrets_latest_versions (w : World) (creds : list Credential) :
  GoRuntimeLaws runtime ->
  ListSecrets w false = Ok creds ->
  exists all,
    decodeCredential
      (project (Some ["name"; "version"; "created_at"]) <$> table w) = Ok all
    /\ (forall c, c ∈ creds ->
          c ∈ all
          /\ forall c', c' ∈ all -> Name c' = Name c ->
               (Atoi (Version c')).1 <= (Atoi (Version c)).1)
    /\ (forall c', c' ∈ all -> exists c, c ∈ creds /\ Name c = Name c')
    /\ NoDup (Name <$> creds)
    /\ StronglySorted
         (fun a b => String.ltb (Name b) (Name a) = false) creds.
Proof.
  intros RL Hlist.
  destruct (ListSecrets_latest w creds RL Hlist)
    as (all & Hall & Hmax & Hcov & Hnd).
  exists all. repeat split; try done; try (by apply Hmax).
  unfold ListSecrets, Scan in Hlist. simpl in Hlist.
  rewrite Hall in Hlist. unfold filterLatest in Hlist. simpl in Hlist.
  injection Hlist as <-.
  apply (sort_Sort_sorted runtime RL _ ByName_Less), ByName_Less_swo.
Qed.

Lemma GetAllSecrets_loop_all_decrypt
    (results : list (option DecryptedCredential))
    (creds : list Credential) (ds : list DecryptedCredential) :
  Forall2 (fun c d => decryptCredential c = Ok d) creds ds ->
  GetAllSecrets_loop results creds = Ok (results ++ (Some <$> ds)).
Proof.
  intros Hds. revert results.
  induction Hds as [|c d creds ds Hc _ IH]; intros results; simpl.
  - by rewrite app_nil_r.
  - unfold GetAllSecrets_step. rewrite Hc. simpl. rewrite IH.
    by rewrite <- app_assoc.
Qed.

Lemma decryptCredential_Cred (c : Credential) (d : DecryptedCredential) :
  decryptCredential c = Ok d -> Cred d = c.
Proof.
  unfold decryptCredential.
  destruct (base64.DecodeString (Key c)); [|done..]. simpl.
  destruct (DecryptDataKey _); [|done..]. simpl.
  destruct (slice_to _ _); [|done..]. simpl.
  destruct (slice_from _ _); [|done..]. simpl.
  destruct (base64.DecodeString (Contents c)); [|done..]. simpl.
  destruct (decide _); [done|].
  destruct (Decrypt _ _); [|done..]. simpl. by intros [= <-].
Qed.

(** X5: when every record [GetAllSecrets] goes on to decrypt does
    decrypt, the result has exactly one entry per record, in the order of
    the loop (by name), none of them nil, each carrying its record and
    the plaintext [decryptCredential] returns for it. *)
Theorem GetAllSecrets_all_decrypt
    (w : World) (allVersions : bool) (creds : list Credential)
    (ds : list DecryptedCredential) :
  GetAllSecrets_creds w allVersions = Ok creds ->
  Forall2 (fun c d => decryptCredential c = Ok d) creds ds ->
  GetAllSecrets w allVersions = Ok (Some <$> ds)
  /\ Cred <$> ds = creds.
Proof.
  intros Hcreds Hds. split.
  - unfold GetAllSecrets. rewrite Hcreds. simpl.
    by rewrite (GetAllSecrets_loop_all_decrypt [] creds ds).
  - clear Hcreds. induction Hds as [|c d creds ds Hc _ IH]; [done|].
    rewrite fmap_cons. f_equal; [by apply decryptCredential_Cred|exact IH].
Qed.

(** X6: a record whose decryption the key-management service refuses
    with [AccessDeniedException] is passed over: the loop of
    [GetAllSecrets] gives the result it gives without that record,
    whatever comes before and after it. *)
Theorem GetAllSecrets_loop_access_denied
    (results : list (option DecryptedCredential))
    (pre post : list Credential) (c : Credential) :
  decryptCredential c = Err (AwsErr "AccessDeniedException") ->
  GetAllSecrets_loop results (pre ++ c :: post)
  = GetAllSecrets_loop results (pre ++ post).
Proof.
  intros Hc. revert results.
  induction pre as [|a pre IH]; intros results; simpl.
  - unfold GetAllSecrets_step. rewrite Hc. done.
  - destruct (GetAllSecrets_step results a); simpl; [apply IH|done..].
Qed.

Lemma GetSecret_selects (w : World) (name version : string)
    (d : DecryptedCredential) :
  GetSecret w name version = Ok d ->
  exists it,
    it ∈ table w
    /\ (if decide (version = EmptyString) then has_name name it = true
        else item_key it = Some (name, version))
    /\ Decode it = Ok (Cred d)
    /\ (version = EmptyString ->
        forall it', it' ∈ table w -> has_name name it' = true ->
          String.ltb (sort_key it) (sort_key it') = false).
Proof.
  unfold GetSecret, Query. simpl.
  set (matching := List.filter _ _).
  destruct (sort_desc matching) as [|z l] eqn:Hs; [done|]. simpl.
  destruct (sort_desc_head_top matching z) as [Hz Htop].
  { by rewrite Hs. }
  destruct (Decode z) as [c| |] eqn:Hd; [|done..]. simpl.
  intros Hdec. rewrite (decryptCredential_Cred c d Hdec).
  apply elem_of_filter_bool in Hz as [Hz Hcond].
  exists z. split; [done|]. split; [|split; [done|]].
  - destruct (decide (version = EmptyString)) as [->|Hv].
    + done.
    + destruct (decide _) as [_|Hl]; [|by apply nonempty_length in Hv].
      by apply has_key_true.
  - intros -> it' Hit' Hn. apply Htop.
    apply elem_of_filter_bool. done.
Qed.

(** X7: [GetSecret] never returns a record of another name or, when a
    version is given, of another version: the credential it returns is
    the decoding of a stored item with the requested key. *)
Theorem GetSecret_returns_requested
    (w : World) (name version : string) (d : DecryptedCredential) :
  CodecLaws codec ->
  GetSecret w name version = Ok d ->
  Name (Cred d) = name
  /\ (version ≠ EmptyString -> Version (Cred d) = version)
  /\ exists it,
       it ∈ table w /\ has_name name it = true /\ Decode it = Ok (Cred d).
Proof.
  intros CL Hget.
  destruct (GetSecret_selects w name version d Hget)
    as (it & Hin & Hcond & Hd & _).
  destruct (decide (version = EmptyString)) as [->|Hv].
  - apply has_name_key in Hcond as Hk. destruct Hk as [v Hk].
    destruct (Decode_key codec CL it _ name v Hd Hk) as [Hn _].
    split; [done|]. split; [done|]. eauto.
  - destruct (Decode_key codec CL it _ name version Hd Hcond) as [Hn Hver].
    split; [done|]. split; [done|].
    exists it. split; [done|]. split; [|done]. apply has_name_key. eauto.
Qed.

(** X8: with no version given, the record [GetSecret] returns is one
    whose version no stored version of the name exceeds in the byte order
    of strings, the order of the table's sort key. *)
Theorem GetSecret_latest_in_store_order
    (w : World) (name : string) (d : DecryptedCredential) :
  CodecLaws codec ->
  GetSecret w name EmptyString = Ok d ->
  forall it', it' ∈ table w -> has_name name it' = true ->
    String.ltb (Version (Cred d)) (sort_key it') = false.
Proof.
  intros CL Hget it' Hit' Hn'.
  destruct (GetSecret_selects w name EmptyString d Hget)
    as (it & Hin & Hcond & Hd & Htop).
  simpl in Hcond. apply has_name_key in Hcond as [v Hk].
  destruct (Decode_key codec CL it _ name v Hd Hk) as [_ ->].
  replace v with (sort_key it) by (unfold sort_key; by rewrite Hk).
  by apply Htop.
Qed.

End More_facts.

(** ** Versions, writing, deleting and the callers *)

Section More_facts_writing.

Context {codec : Codec} {kms : KMS} {crypto : Crypto} {runtime : GoRuntime}.

Import dynamodb_facts base64_facts order_facts.

Lemma numeric_top_in_store_order
    (t : list Item) (name : string) (k : nat) (it : Item) :
  same_width t name k -> (k <= 18)%nat ->
  it ∈ t -> has_name name it = true ->
  numeric_top t name it ->
  forall it', it' ∈ t -> has_name name it' = true ->
    it' = it \/ String.ltb (sort_key it') (sort_key it) = true.
Proof.
  intros Hw Hk Hin Hn Htop it' Hin' Hn'.
  destruct (Htop it' Hin' Hn') as [->|Hlt]; [by left|right].
  destruct (Hw it Hin Hn) as [Hnum Hlen].
  destruct (Hw it' Hin' Hn') as [Hnum' Hlen'].
  destruct (Atoi_numeral (sort_key it) Hnum) as [Ha _]; [lia|].
  destruct (Atoi_numeral (sort_key it') Hnum') as [Ha' _]; [lia|].
  rewrite Ha, Ha' in Hlt. simpl in Hlt.
  rewrite ltb_numerals by (done || congruence).
  by apply Z.ltb_lt.
Qed.

(** X9: when the stored versions of a name are decimal numerals of one
    and the same number of digits (at most 18), [GetSecret] with no
    version reads the record of the numerically highest version. *)
Theorem GetSecret_latest_same_width
    (w : World) (name : string) (k : nat) (it : Item) :
  same_width (table w) name k -> (k <= 18)%nat ->
  it ∈ table w -> has_name name it = true ->
  numeric_top (table w) name it ->
  GetSecret w name EmptyString = (cred ← Decode it; decryptCredential cred).
Proof.
  intros Hw Hk Hin Hn Htop. apply GetSecret_latest; [done..|].
  by apply (numeric_top_in_store_order (table w) name k).
Qed.

(** X10: under the same condition [ResolveVersion] with no explicit
    version returns the numerically highest stored version plus one. *)
Theorem ResolveVersion_same_width
    (w : World) (name : string) (k : nat) (it : Item) :
  same_width (table w) name k -> (k <= 18)%nat ->
  it ∈ table w -> has_name name it = true ->
  numeric_top (table w) name it ->
  ResolveVersion w name 0 = Ok (Itoa ((Atoi (sort_key it)).1 + 1)).
Proof.
  intros Hw Hk Hin Hn Htop.
  destruct (Hw it Hin Hn) as [Hnum Hlen].
  destruct (Atoi_numeral (sort_key it) Hnum) as [Ha Hr]; [lia|].
  apply has_name_key in Hn as Hkey. destruct Hkey as [v Hkey].
  assert (sort_key it = v) as Hsk by (unfold sort_key; by rewrite Hkey).
  rewrite (ResolveVersion_next w name v it (numeral_value v)); try done.
  - rewrite Ha, Hsk. simpl. rewrite wrap_small; [done|].
    rewrite Hsk in Hr. lia.
  - rewrite <- Hsk.
    by apply (numeric_top_in_store_order (table w) name k).
  - by rewrite <- Hsk.
Qed.

(** X11: [GetHighestVersion] returns [ErrSecretNotFound] when the name
    has no stored version, and otherwise a version stored under the name
    that no stored version of the name exceeds in the byte order of
    strings. *)
Theorem GetHighestVersion_in_store_order (w : World) (name : string) :
  ((forall it, it ∈ table w -> has_name name it = false) ->
   GetHighestVersion w name = Err ErrSecretNotFound)
  /\ (forall it, it ∈ table w -> has_name name it = true ->
      exists v top,
        GetHighestVersion w name = Ok v
        /\ top ∈ table w /\ item_key top = Some (name, v)
        /\ forall it', it' ∈ table w -> has_name name it' = true ->
             String.ltb v (sort_key it') = false).
Proof.
  split.
  - intros Hnone. unfold GetHighestVersion, Query.
    by rewrite filter_bool_nil.
  - intros it Hin Hn. unfold GetHighestVersion, Query. simpl.
    set (matching := List.filter _ _).
    assert (it ∈ sort_desc matching) as Hit.
    { apply elem_of_sort_desc, elem_of_filter_bool. done. }
    destruct (sort_desc matching) as [|z l] eqn:Hs.
    { by apply elem_of_nil in Hit. }
    destruct (sort_desc_head_top matching z) as [Hz Htop].
    { by rewrite Hs. }
    apply elem_of_filter_bool in Hz as [Hz Hzn].
    apply has_name_key in Hzn as Hk. destruct Hk as [v Hk].
    assert (sort_key z = v) as Hsk by (unfold sort_key; by rewrite Hk).
    exists v, z. simpl.
    change (filter _ z) with (project (Some ["version"]) z).
    rewrite lookup_project by (by left).
    split; [|split; [done|split; [done|]]].
    + unfold item_key in Hk.
      destruct (z !! "name") as [[nm|]|]; try done.
      destruct (z !! "version") as [[vs|]|]; try done.
      by injection Hk as -> ->.
    + intros it' Hit' Hn'. rewrite <- Hsk. apply Htop.
      apply elem_of_filter_bool. done.
Qed.

(** *** Writing *)

(** X12: [PutSecret] never changes or removes a stored record: the table
    it leaves is the table it found, with one item appended exactly when
    it returns no error. *)
Theorem PutSecret_keeps_records
    (w : World) (alias name secret version : string) :
  ((PutSecret w alias name secret version).1 = Ok tt
   /\ exists data,
        table (PutSecret w alias name secret version).2 = table w ++ [data])
  \/ ((PutSecret w alias name secret version).1 ≠ Ok tt
      /\ table (PutSecret w alias name secret version).2 = table w).
Proof.
  unfold PutSecret.
  destruct (PutSecret_item w alias name secret version) as [data| |];
    [|by right..].
  unfold PutItem. destruct (item_key data) as [k|]; [|by right].
  destruct (existsb _ _); [by right|].
  left. split; [done|]. by exists data.
Qed.

Lemma filter_bool_sublist {A : Type} (f : A -> bool) (l : list A) :
  List.filter f l `sublist_of` l.
Proof.
  induction l as [|x l IH]; simpl; [done|].
  destruct (f x); [by apply sublist_skip|by apply sublist_cons].
Qed.

Lemma DeleteSecret_loop_sublist (t items : list Item) :
  (DeleteSecret_loop t items).2 `sublist_of` t.
Proof.
  revert t. induction items as [|item items IH]; intros t; simpl; [done|].
  destruct (Decode item) as [cred| |]; [|done..]. simpl.
  etransitivity; [apply IH|apply filter_bool_sublist].
Qed.

Lemma DeleteSecret_sublist (w : World) (name : string) :
  table (DeleteSecret w name).2 `sublist_of` table w.
Proof.
  unfold DeleteSecret, Query. simpl.
  destruct (DeleteSecret_loop _ _) as [err t'] eqn:Hloop. simpl.
  change t' with (err, t').2. rewrite <- Hloop.
  apply DeleteSecret_loop_sublist.
Qed.

(** X13: the writes keep the table well keyed: if every stored item has
    its key and no two items share a (name, version) pair, the same holds
    after [PutSecret] and after [DeleteSecret], whatever they return. *)
Theorem writes_keep_well_keyed
    (w : World) (alias name secret version : string) :
  well_keyed (table w) ->
  well_keyed (table (PutSecret w alias name secret version).2)
  /\ well_keyed (table (DeleteSecret w name).2).
Proof.
  intros [Hkeys Hnd]. split.
  - unfold PutSecret.
    destruct (PutSecret_item w alias name secret version) as [data| |];
      [|done..].
    unfold PutItem. destruct (item_key data) as [k|] eqn:Hk; [|done].
    destruct (existsb _ _) eqn:Hex; [done|]. simpl. split.
    + apply Forall_app. split; [done|]. constructor; [|done].
      by rewrite Hk.
    + rewrite fmap_app. apply NoDup_app. split; [done|]. split.
      * intros x Hx ->%list_elem_of_singleton.
        apply list_elem_of_fmap in Hx as (it & Hit & Hin).
        assert (existsb (has_key k) (table w) = true) as Hex'.
        { apply existsb_has_key. exists it. split; [done|]. congruence. }
        congruence.
      * apply NoDup_singleton.
  - pose proof (DeleteSecret_sublist w name) as Hsub. split.
    + apply Forall_forall. intros it Hit. rewrite Forall_forall in Hkeys.
      apply Hkeys. by eapply elem_of_sublist.
    + eapply sublist_NoDup; [exact Hnd|]. by apply fmap_sublist.
Qed.

(** *** Deleting *)

(** X14: [DeleteSecret] of a name that has no stored version returns no
    error and leaves the table as it is. *)
Theorem DeleteSecret_unknown_name (w : World) (name : string) :
  (forall it, it ∈ table w -> has_name name it = false) ->
  DeleteSecret w name = (Ok tt, w).
Proof.
  intros Hnone. unfold DeleteSecret, Query.
  rewrite filter_bool_nil by done. simpl. by destruct w.
Qed.

Lemma filter_filter_implied {A : Type} (p q : A -> bool) (l : list A) :
  (forall x, p x = true -> q x = true) ->
  List.filter p (List.filter q l) = List.filter p l.
Proof.
  intros Hpq. induction l as [|x l IH]; simpl; [done|].
  destruct (q x) eqn:Hq; simpl.
  - by rewrite IH.
  - destruct (p x) eqn:Hp; [|done]. apply Hpq in Hp. congruence.
Qed.

Lemma DeleteSecret_loop_others (t items : list Item) (name : string) :
  CodecLaws codec ->
  (forall it, it ∈ items -> has_name name it = true) ->
  List.filter (fun it => negb (has_name name it)) (DeleteSecret_loop t items).2
  = List.filter (fun it => negb (has_name name it)) t.
Proof.
  intros CL. revert t.
  induction items as [|item items IH]; intros t Hitems; simpl; [done|].
  destruct (Decode item) as [cred| |] eqn:Hd; [|done..]. simpl.
  assert (has_name name item = true) as Hn by (apply Hitems; by left).
  apply has_name_key in Hn as [v Hk].
  destruct (Decode_key codec CL item cred name v Hd Hk) as [<- <-].
  rewrite IH by (intros it Hit; apply Hitems; by right).
  apply filter_filter_implied. intros x Hx.
  apply negb_true_iff in Hx. apply negb_true_iff.
  destruct (has_key (Name cred, Version cred) x) eqn:Hkx; [|done].
  apply has_key_true in Hkx.
  assert (has_name (Name cred) x = true) by (apply has_name_key; eauto).
  congruence.
Qed.

(** X15: [DeleteSecret] never touches the records of other names,
    whether it succeeds or stops at an error partway: the items of other
    names are the same, in the same order, before and after, and nothing
    is added to the table. *)
Theorem DeleteSecret_other_names (w : World) (name : string) :
  CodecLaws codec ->
  List.filter (fun it => negb (has_name name it)) (table (DeleteSecret w name).2)
  = List.filter (fun it => negb (has_name name it)) (table w)
  /\ table (DeleteSecret w name).2 `sublist_of` table w.
Proof.
  intros CL. split; [|apply DeleteSecret_sublist].
  unfold DeleteSecret, Query. simpl. rewrite list_fmap_id.
  destruct (DeleteSecret_loop _ _) as [err t'] eqn:Hloop. simpl.
  change t' with (err, t').2. rewrite <- Hloop.
  apply DeleteSecret_loop_others; [done|].
  intros it [_ Hit]%elem_of_sort_desc%elem_of_filter_bool. done.
Qed.

End More_facts_writing.

(** ** Round trips, the callers and the bounds *)

Section More_facts_callers.

Context {codec : Codec} {kms : KMS} {crypto : Crypto} {runtime : GoRuntime}.

Import dynamodb_facts base64_facts order_facts.

Lemma written_version_nonempty (version : string) :
  written_version version ≠ EmptyString.
Proof. unfold written_version. by destruct (decide _). Qed.

(** The item a write assembles decrypts to the secret it was given. *)
Lemma PutSecret_item_decrypts
    (w : World) (alias name secret version : string) (data : Item) :
  CodecLaws codec -> CryptoLaws crypto ->
  PutSecret_item w alias name secret version = Ok data ->
  unwraps (tick w) (used_alias alias) ->
  exists cred,
    Decode data = Ok cred
    /\ Name cred = name /\ Version cred = written_version version
    /\ decryptCredential cred = Ok {| Cred := cred; Secret := secret |}.
Proof.
  intros CL KL Hitem Hunwrap. unfold PutSecret_item in Hitem.
  fold (used_alias alias) in Hitem. fold (written_version version) in Hitem.
  destruct (GenerateDataKey _ _ _) as [dk| |] eqn:Hgen; [|done..].
  simpl in Hitem.
  destruct (slice_to _ _) as [dataKey| |] eqn:Hto; [|done..]. simpl in Hitem.
  destruct (slice_from _ _) as [hmacKey| |] eqn:Hfrom; [|done..].
  simpl in Hitem.
  destruct (Encrypt _ _) as [ctext| |] eqn:Henc; [|done..]. simpl in Hitem.
  apply slice_to_Ok in Hto as [Hlen ->].
  apply slice_from_Ok in Hfrom as [_ ->].
  destruct (Hunwrap dk Hgen) as (dk' & Hdk' & Hpt).
  eexists. split; [by apply (Decode_Encode codec CL)|].
  split; [done|]. split; [done|].
  erewrite decryptCredential_unwrapped; cycle 1.
  { simpl. apply DecodeString_EncodeToString. }
  { exact Hdk'. }
  { by rewrite Hpt. }
  simpl. rewrite DecodeString_EncodeToString. simpl. rewrite Hpt.
  destruct (decide _) as [Hne|_]; [done|].
  rewrite (Decrypt_Encrypt crypto KL _ _ _ Henc). simpl.
  by rewrite string_of_bytes_of_string.
Qed.

Lemma PutSecret_success_fresh
    (w w' : World) (alias name secret version : string) :
  CodecLaws codec ->
  PutSecret w alias name secret version = (Ok tt, w') ->
  exists data,
    PutSecret_item w alias name secret version = Ok data
    /\ w' = {| table := table w ++ [data]; tick := S (tick w) |}
    /\ forall it, it ∈ table w ->
         item_key it ≠ Some (name, written_version version).
Proof.
  intros CL. unfold PutSecret.
  destruct (PutSecret_item w alias name secret version) as [data| |] eqn:Hitem;
    [|done..].
  pose proof (PutSecret_item_key _ _ _ _ _ _ CL Hitem) as Hk.
  unfold PutItem. rewrite Hk.
  destruct (existsb _ _) eqn:Hex; [done|].
  intros [= <-]. exists data. split; [done|]. split; [done|].
  intros it Hit Hkey.
  assert (existsb
            (has_key (name, if decide (version = EmptyString) then "1" else version))
            (table w) = true) as Hex'.
  { apply existsb_has_key. eauto. }
  congruence.
Qed.

(** X16: after a successful [PutSecret], [GetSecret] of the name and the
    version that was written returns the secret that was put, whatever
    other versions the name holds, provided the key-management service
    unwraps the data key it generated. *)
Theorem PutSecret_then_GetSecret_version
    (w w' : World) (alias name secret version : string) :
  CodecLaws codec -> CryptoLaws crypto ->
  PutSecret w alias name secret version = (Ok tt, w') ->
  unwraps (tick w) (used_alias alias) ->
  exists d,
    GetSecret w' name (written_version version) = Ok d
    /\ Secret d = secret
    /\ Name (Cred d) = name
    /\ Version (Cred d) = written_version version.
Proof.
  intros CL KL Hput Hunwrap.
  destruct (PutSecret_success_fresh _ _ _ _ _ _ CL Hput)
    as (data & Hitem & -> & Hfresh).
  destruct (PutSecret_item_decrypts _ _ _ _ _ _ CL KL Hitem Hunwrap)
    as (cred & Hd & Hn & Hv & Hdec).
  pose proof (PutSecret_item_key _ _ _ _ _ _ CL Hitem) as Hk.
  fold (written_version version) in Hk.
  rewrite (GetSecret_stored _ name (written_version version) cred).
  - rewrite Hdec. eexists. split; [done|]. done.
  - apply written_version_nonempty.
  - split; simpl.
    + exists data. split; [|done]. apply elem_of_app. right. by left.
    + intros it [Hit|Hit]%elem_of_app Hkey.
      * by destruct (Hfresh it Hit).
      * apply list_elem_of_singleton in Hit as ->. done.
Qed.

(** X17: the [put] command on a name that has no stored version, with
    no explicit version, stores version ["1"], and a [get] of the name
    then prints the secret that was put. *)
Theorem cmdPut_fresh_name
    (w w' : World) (alias name secret v : string) :
  CodecLaws codec -> CryptoLaws crypto ->
  (forall it, it ∈ table w -> has_name name it = false) ->
  unwraps (tick w) (used_alias alias) ->
  cli.cmdPut w alias name secret 0 = (Ok v, w') ->
  v = "1"
  /\ (exists data,
        table w' = table w ++ [data] /\ item_key data = Some (name, "1"))
  /\ cli.cmdGet w' name EmptyString = Ok secret.
Proof.
  intros CL KL Hfresh Hunwrap. unfold cli.cmdPut.
  rewrite (ResolveVersion_fresh w name Hfresh).
  destruct (PutSecret w alias name secret "1") as [[[]| |] w1] eqn:Hput;
    [|done..].
  intros [= <- <-]. split; [done|].
  destruct (PutSecret_success _ _ _ _ _ _ CL Hput) as (data & Hitem & Hw1).
  split.
  - exists data. rewrite Hw1. split; [done|].
    by rewrite (PutSecret_item_key _ _ _ _ _ _ CL Hitem).
  - destruct (PutSecret_GetSecret w w1 alias name secret "1" CL KL Hput Hunwrap)
      as (d & Hget & Hs & _).
    + intros it Hit Hn. rewrite (Hfresh it Hit) in Hn. done.
    + unfold cli.cmdGet. rewrite Hget. simpl. by rewrite Hs.
Qed.

Lemma forM_row_nil (creds : list (option DecryptedCredential)) :
  None ∈ creds -> forM cli.cmdGetAll_row creds = Panic.
Proof.
  induction creds as [|[d|] creds IH]; intros Hin.
  - by apply elem_of_nil in Hin.
  - apply elem_of_cons in Hin as [?|Hin]; [done|].
    simpl. by rewrite IH.
  - done.
Qed.

(** X18: the [getall] command panics, rather than print the table or
    report the error, whenever a record [GetAllSecrets] goes on to
    decrypt fails with an error other than [AccessDeniedException]: the
    nil entry of the result is dereferenced. *)
Theorem cmdGetAll_nil_entry_panics
    (w : World) (allVersions : bool) (creds : list Credential)
    (c : Credential) (e : error) :
  GetAllSecrets_creds w allVersions = Ok creds ->
  (forall c', c' ∈ creds -> decryptCredential c' ≠ Panic) ->
  c ∈ creds ->
  decryptCredential c = Err e ->
  e ≠ AwsErr "AccessDeniedException" ->
  cli.cmdGetAll w allVersions = Panic.
Proof.
  intros Hcreds Hnp Hc Hd He. unfold cli.cmdGetAll, GetAllSecrets.
  rewrite Hcreds. simpl. rewrite GetAllSecrets_loop_spec by done. simpl.
  apply forM_row_nil.
  assert (skipped c = false) as Hsk.
  { unfold skipped. rewrite Hd. destruct e; try done.
    apply bool_decide_eq_false_2. congruence. }
  assert (entry c = None) as <- by (unfold entry; by rewrite Hd).
  apply list_elem_of_fmap_2, elem_of_filter_bool. by rewrite Hsk.
Qed.

(** X19: [getRegion] returns the body of the response without its last
    byte, and panics when the body is empty. *)
Theorem getRegion_strips_last_byte `{HTTP} (contents : bytes) :
  client_Get zoneURL = Ok (Ok contents) ->
  (contents = [] -> getRegion = Panic)
  /\ (forall body last,
        contents = body ++ [last] -> getRegion = Ok (string_of_bytes body)).
Proof.
  intros Hget. unfold getRegion. rewrite Hget. simpl. split.
  - by intros ->.
  - intros body last ->. rewrite length_app. simpl.
    destruct (decide _) as [_|Hl]; [|lia].
    f_equal. f_equal. apply take_app_length'. lia.
Qed.

(** X20: a data key of fewer than 32 bytes makes the package panic at the
    slice of the key: [decryptCredential] on a record whose wrapped key
    unwraps to one, and [PutSecret] when the service generates one, in
    which case nothing is written. *)
Theorem short_data_key_panics :
  (forall cred wk dk,
     base64.DecodeString (Key cred) = Ok wk ->
     DecryptDataKey wk = Ok dk ->
     (length (Plaintext dk) < 32)%nat ->
     decryptCredential cred = Panic)
  /\ (forall w alias name secret version dk,
        GenerateDataKey (tick w) (used_alias alias) 64 = Ok dk ->
        (length (Plaintext dk) < 32)%nat ->
        (PutSecret w alias name secret version).1 = Panic
        /\ table (PutSecret w alias name secret version).2 = table w).
Proof.
  split.
  - intros cred wk dk Hwk Hdk Hlen. unfold decryptCredential.
    rewrite Hwk. simpl. rewrite Hdk. simpl. unfold slice_to.
    destruct (decide _); [lia|done].
  - intros w alias name secret version dk Hgen Hlen.
    unfold PutSecret, PutSecret_item. fold (used_alias alias).
    rewrite Hgen. simpl. unfold slice_to.
    destruct (decide (32 <= length (Plaintext dk))%nat); [lia|done].
Qed.

Lemma forM_not_Ok {A B : Type} (f : A -> Res B) (xs : list A) (x : A) :
  x ∈ xs -> (forall y, f x ≠ Ok y) -> forall ys, forM f xs ≠ Ok ys.
Proof.
  intros Hx Hf ys Hys. apply forM_spec in Hys.
  apply list_elem_of_lookup in Hx as [i Hi].
  destruct (Forall2_lookup_l _ _ _ _ _ Hys Hi) as (y & _ & Hy).
  by destruct (Hf y).
Qed.

(** X21: one stored item that does not decode makes a listing fail as a
    whole: neither [ListSecrets] nor [GetAllSecrets] returns a list,
    with or without [allVersions]. *)
Theorem listing_decode_failure (w : World) (allVersions : bool) (it : Item) :
  it ∈ table w ->
  ((forall c,
      Decode (project (Some ["name"; "version"; "created_at"]) it) ≠ Ok c) ->
   forall creds, ListSecrets w allVersions ≠ Ok creds)
  /\ ((forall c,
         Decode
           (project
              (Some ["name"; "version"; "key"; "contents"; "hmac";
                     "created_at"]) it) ≠ Ok c) ->
      forall results, GetAllSecrets w allVersions ≠ Ok results).
Proof.
  intros Hit. split; intros Hbad res.
  - unfold ListSecrets, Scan, decodeCredential. simpl.
    destruct (forM Decode _) as [all| |] eqn:Hall; [|done..].
    exfalso. eapply (forM_not_Ok Decode); [|exact Hbad|exact Hall].
    by apply list_elem_of_fmap_2.
  - unfold GetAllSecrets, GetAllSecrets_creds, Scan, decodeCredential. simpl.
    destruct (forM Decode _) as [all| |] eqn:Hall; [|done..].
    exfalso. eapply (forM_not_Ok Decode); [|exact Hbad|exact Hall].
    by apply list_elem_of_fmap_2.
Qed.

End More_facts_callers.

(** ** The further properties on given tables *)

Section checks.

Context {codec : Codec} {kms : KMS} {crypto : Crypto} {runtime : GoRuntime}.

Lemma same_widthb_true (t : list Item) (name : string) (k : nat) :
  same_widthb t name k = true -> same_width t name k.
Proof.
  unfold same_widthb. rewrite forallb_forall. intros Hall it Hit Hn.
  apply list_elem_of_In, Hall in Hit. rewrite Hn in Hit. simpl in Hit.
  apply andb_prop in Hit as [Hnum Hlen]. split; [done|].
  by apply bool_decide_eq_true in Hlen.
Qed.

Lemma numeric_topb_true (t : list Item) (name : string) (it : Item) :
  numeric_topb t name it = true -> numeric_top t name it.
Proof.
  unfold numeric_topb. rewrite forallb_forall. intros Hall it' Hit' Hn.
  apply list_elem_of_In, Hall in Hit'. rewrite Hn in Hit'. simpl in Hit'.
  apply orb_prop in Hit' as [Heq|Hlt].
  - left. by apply bool_decide_eq_true in Heq.
  - right. by apply Z.ltb_lt.
Qed.

Lemma no_nameb_true (t : list Item) (name : string) :
  no_nameb t name = true ->
  forall it, it ∈ t -> has_name name it = false.
Proof.
  unfold no_nameb. rewrite forallb_forall. intros Hall it Hit.
  apply list_elem_of_In, Hall in Hit. by apply negb_true_iff.
Qed.

Lemma well_keyedb_true (t : list Item) :
  well_keyedb t = true -> well_keyed t.
Proof.
  unfold well_keyedb. intros [Hk Hnd]%andb_prop. split.
  - apply Forall_forall. intros it Hit. rewrite forallb_forall in Hk.
    apply list_elem_of_In, Hk in Hit. by apply bool_decide_eq_true in Hit.
  - by apply bool_decide_eq_true in Hnd.
Qed.

End checks.

Module More_runs.
Import Ref Ref_facts Ref_more.

Lemma filterLatest_one_per_name_witness :
  exists results,
    filterLatest three = Ok results
    /\ NoDup (Name <$> results)
    /\ forall c, c ∈ results -> c ∈ three.
Proof.
  destruct (filterLatest_one_per_name three runtime_laws)
    as (results & Hr & Hmax & _ & Hnd & _).
  exists results. split; [done|]. split; [done|].
  intros c Hc. by apply Hmax.
Defined.

Lemma ListSecrets_all_versions_witness :
  ListSecrets w_two true = Ok (listed w_two true)
  /\ StronglySorted (fun a b => String.ltb (Name b) (Name a) = false)
       (listed w_two true).
Proof.
  split; [vm_compute; reflexivity|].
  destruct (ListSecrets_all_versions w_two (listed w_two true) runtime_laws)
    as (all & _ & _ & Hsorted).
  - vm_compute. reflexivity.
  - exact Hsorted.
Defined.

Lemma ListSecrets_latest_versions_witness :
  ListSecrets w11 false = Ok (listed w11 false)
  /\ NoDup (Name <$> listed w11 false).
Proof.
  split; [vm_compute; reflexivity|].
  destruct (ListSecrets_latest_versions w11 (listed w11 false) runtime_laws)
    as (all & _ & _ & _ & Hnd & _).
  - vm_compute. reflexivity.
  - exact Hnd.
Defined.

Lemma GetAllSecrets_all_decrypt_witness :
  GetAllSecrets w_two true = Ok [Some (opened w_two 0); Some (opened w_two 1)].
Proof.
  apply (GetAllSecrets_all_decrypt w_two true [fetch w_two 0; fetch w_two 1]
           [opened w_two 0; opened w_two 1]).
  - vm_compute. reflexivity.
  - constructor; [vm_compute; reflexivity|].
    constructor; [vm_compute; reflexivity|]. constructor.
Defined.

Lemma GetAllSecrets_loop_access_denied_witness :
  decryptCredential (fetch w_sealed 1) = Err (AwsErr "AccessDeniedException")
  /\ GetAllSecrets_loop [] ([fetch w_sealed 0] ++ fetch w_sealed 1 :: [])
     = GetAllSecrets_loop [] ([fetch w_sealed 0] ++ []).
Proof.
  split; [vm_compute; reflexivity|].
  apply GetAllSecrets_loop_access_denied. vm_compute. reflexivity.
Defined.

Lemma GetSecret_returns_requested_witness :
  GetSecret w11 "db/password" "3" = Ok (got w11 "db/password" "3")
  /\ Name (Cred (got w11 "db/password" "3")) = "db/password"
  /\ Version (Cred (got w11 "db/password" "3")) = "3".
Proof.
  split; [vm_compute; reflexivity|].
  destruct (GetSecret_returns_requested w11 "db/password" "3"
              (got w11 "db/password" "3") codec_laws) as (Hn & Hv & _).
  - vm_compute. reflexivity.
  - split; [exact Hn|]. apply Hv. discriminate.
Defined.

Lemma GetSecret_latest_in_store_order_witness :
  GetSecret w11 "db/password" EmptyString
  = Ok (got w11 "db/password" EmptyString)
  /\ forall it', it' ∈ table w11 -> has_name "db/password" it' = true ->
       String.ltb (Version (Cred (got w11 "db/password" EmptyString)))
         (sort_key it') = false.
Proof.
  split; [vm_compute; reflexivity|].
  apply (GetSecret_latest_in_store_order w11 "db/password" _ codec_laws).
  vm_compute. reflexivity.
Defined.

Lemma GetSecret_latest_same_width_witness :
  sort_key (item w9 8) = "9"
  /\ GetSecret w9 "db/password" EmptyString
     = (cred ← Decode (item w9 8); decryptCredential cred).
Proof.
  split; [vm_compute; reflexivity|].
  apply (GetSecret_latest_same_width w9 "db/password" 1 (item w9 8)).
  - apply same_widthb_true. vm_compute. reflexivity.
  - lia.
  - apply list_elem_of_lookup. exists 8%nat. vm_compute. reflexivity.
  - vm_compute. reflexivity.
  - apply numeric_topb_true. vm_compute. reflexivity.
Defined.

Lemma ResolveVersion_same_width_witness :
  ResolveVersion w9 "db/password" 0
  = Ok (Itoa ((Atoi (sort_key (item w9 8))).1 + 1))
  /\ Itoa ((Atoi (sort_key (item w9 8))).1 + 1) = "10".
Proof.
  split; [|vm_compute; reflexivity].
  apply (ResolveVersion_same_width w9 "db/password" 1 (item w9 8)).
  - apply same_widthb_true. vm_compute. reflexivity.
  - lia.
  - apply list_elem_of_lookup. exists 8%nat. vm_compute. reflexivity.
  - vm_compute. reflexivity.
  - apply numeric_topb_true. vm_compute. reflexivity.
Defined.

Lemma writes_keep_well_keyed_witness :
  well_keyed (table (PutSecret w_two EmptyString "db/password" "x" "2").2)
  /\ well_keyed (table (DeleteSecret w_two "db/password").2).
Proof.
  apply writes_keep_well_keyed. apply well_keyedb_true.
  vm_compute. reflexivity.
Defined.

Lemma DeleteSecret_unknown_name_witness :
  DeleteSecret w_one "api/key" = (Ok tt, w_one).
Proof.
  apply DeleteSecret_unknown_name. apply no_nameb_true.
  vm_compute. reflexivity.
Defined.

Lemma DeleteSecret_other_names_witness :
  (DeleteSecret w_two "db/password").1 = Ok tt
  /\ List.filter (fun it => negb (has_name "db/password" it))
       (table (DeleteSecret w_two "db/password").2)
     = List.filter (fun it => negb (has_name "db/password" it)) (table w_two).
Proof.
  split; [vm_compute; reflexivity|].
  apply (DeleteSecret_other_names w_two "db/password" codec_laws).
Defined.

Lemma PutSecret_then_GetSecret_version_witness :
  exists d,
    GetSecret (PutSecret w11 EmptyString "db/password" "s3cr3t" "12").2
      "db/password" "12" = Ok d
    /\ Secret d = "s3cr3t".
Proof.
  destruct (PutSecret_then_GetSecret_version w11
              (PutSecret w11 EmptyString "db/password" "s3cr3t" "12").2
              EmptyString "db/password" "s3cr3t" "12" codec_laws crypto_laws)
    as (d & Hget & Hs & _).
  - vm_compute. reflexivity.
  - apply kms_unwraps. discriminate.
  - exists d. split; [exact Hget|exact Hs].
Defined.

Lemma cmdPut_fresh_name_witness :
  (cli.cmdPut empty EmptyString "db/password" "s3cr3t" 0).1 = Ok "1"
  /\ cli.cmdGet (cli.cmdPut empty EmptyString "db/password" "s3cr3t" 0).2
       "db/password" EmptyString = Ok "s3cr3t".
Proof.
  split; [vm_compute; reflexivity|].
  apply (cmdPut_fresh_name empty _ EmptyString "db/password" "s3cr3t" "1"
           codec_laws crypto_laws).
  - apply no_nameb_true. vm_compute. reflexivity.
  - apply kms_unwraps. discriminate.
  - vm_compute. reflexivity.
Defined.

Lemma cmdGetAll_nil_entry_panics_witness :
  cli.cmdGetAll w_forged true = Panic.
Proof.
  apply (cmdGetAll_nil_entry_panics w_forged true
           [fetch w_forged 0; fetch w_forged 1] (fetch w_forged 1)
           ErrHmacValidationFailed).
  - vm_compute. reflexivity.
  - apply no_panicb_true. vm_compute. reflexivity.
  - right. left.
  - vm_compute. reflexivity.
  - discriminate.
Defined.

Lemma getRegion_strips_last_byte_witness :
  getRegion = Ok "us-west-2".
Proof.
  destruct (@getRegion_strips_last_byte http (bytes_of_string "us-west-2a"))
    as [_ Hstrip]; [reflexivity|].
  exact (Hstrip (bytes_of_string "us-west-2") "a"%byte eq_refl).
Defined.

Lemma short_data_key_panics_witness :
  (PutSecret (kms := short_kms) empty EmptyString "db/password" "s3cr3t" "1").1
  = Panic.
Proof.
  eapply (proj2 (short_data_key_panics (kms := short_kms))).
  - vm_compute. reflexivity.
  - apply Nat.ltb_lt. vm_compute. reflexivity.
Defined.

Lemma listing_decode_failure_witness :
  (forall creds, ListSecrets w_undecodable true ≠ Ok creds)
  /\ (forall results, GetAllSecrets w_undecodable false ≠ Ok results).
Proof.
  split.
  - apply (proj1 (listing_decode_failure w_undecodable true
                    (<["created_at" := AttrS "yesterday"]> (item w_one 0))
                    ltac:(left))).
    intros c. vm_compute. discriminate.
  - apply (proj2 (listing_decode_failure w_undecodable false
                    (<["created_at" := AttrS "yesterday"]> (item w_one 0))
                    ltac:(left))).
    intros c. vm_compute. discriminate.
Defined.

End More_runs.

(** ** The round trip after nine versions *)

Module Round_trip_runs.
Import Ref Ref_more.

(** C5: the round trip fails on a name that holds the versions ["1"] to
    ["9"]. The put command resolves the next version to ["10"] and
    [PutSecret] stores the secret under it without error; [GetSecret]
    with no version on the resulting table returns the record of version
    ["9"] with the secret written then, not the secret just put. The
    record is in the table: the read of version ["10"] returns the
    secret, and the listing of the latest versions names version
    ["10"]. *)
Theorem put_then_get_after_nine_versions :
  item_key <$> table w9
  = (fun i => Some ("db/password", Itoa (Z.of_nat i))) <$> seq 1 9
  /\ ResolveVersion w9 "db/password" 0 = Ok "10"
  /\ PutSecret w9 EmptyString "db/password" "s3cr3t" "10" = (Ok tt, w9_put)
  /\ cli.cmdPut w9 EmptyString "db/password" "s3cr3t" 0 = (Ok "10", w9_put)
  /\ GetSecret w9_put "db/password" EmptyString
     = Ok (got w9_put "db/password" EmptyString)
  /\ Version (Cred (got w9_put "db/password" EmptyString)) = "9"
  /\ Secret (got w9_put "db/password" EmptyString) = "secret-9"
  /\ cli.cmdGet w9_put "db/password" EmptyString = Ok "secret-9"
  /\ cli.cmdGet w9_put "db/password" "10" = Ok "s3cr3t"
  /\ Version <$> listed w9_put false = ["10"].
Proof.
  do 9 (split; [vm_compute; reflexivity|]).
  vm_compute. reflexivity.
Qed.

End Round_trip_runs.

(** ** Creating the table *)

Section Setup_facts.

Context {api : TableAPI} {scheduler : Scheduler}.

(** Ticks whose describe requests find the table not yet active are
    passed one by one. *)
Lemma waitForTable_loop_ticks (tableName : string) (n fuel i polls : nat) :
  (forall j, (j < n)%nat -> select_receive (i + j) = ticker_C) ->
  (forall j, (j < n)%nat ->
     not_yet_active (DescribeTable (polls + j) tableName)) ->
  waitForTable_loop (n + fuel) tableName i polls
  = waitForTable_loop fuel tableName (i + n) (polls + n).
Proof.
  revert i polls. induction n as [|n IH]; intros i polls Hticks Hpolls.
  - by rewrite !Nat.add_0_r.
  - cbn [Nat.add waitForTable_loop].
    pose proof (Hticks 0%nat ltac:(lia)) as Ht. rewrite Nat.add_0_r in Ht.
    destruct (Hpolls 0%nat ltac:(lia)) as (status & Hp & Hstatus).
    rewrite Nat.add_0_r in Hp. rewrite Ht, Hp.
    destruct (decide (status = "ACTIVE")) as [|_]; [done|].
    rewrite IH.
    + f_equal; lia.
    + intros j Hj. replace (S i + j)%nat with (i + S j)%nat by lia.
      apply Hticks. lia.
    + intros j Hj. replace (S polls + j)%nat with (polls + S j)%nat by lia.
      apply Hpolls. lia.
Qed.

(** The wait up to the receive number [k], all earlier receives being
    ticks that found the table not yet active. *)
Lemma waitForTable_upto (tableName : string) (k fuel : nat) :
  (forall i, (i < k)%nat -> select_receive i = ticker_C) ->
  (forall i, (i < k)%nat -> not_yet_active (DescribeTable i tableName)) ->
  (k < fuel)%nat ->
  waitForTable fuel tableName
  = match select_receive k with
    | ticker_C =>
        match DescribeTable k tableName with
        | Err err => Some (Err err, S k)
        | Panic => Some (Panic, S k)
        | Ok status =>
            if decide (status = "ACTIVE") then Some (Ok tt, S k)
            else waitForTable_loop (fuel - S k) tableName (S k) (S k)
        end
    | timeout_chan => Some (Err ErrTimeout, k)
    end.
Proof.
  intros Hticks Hpolls Hfuel. unfold waitForTable.
  replace fuel with (k + S (fuel - S k))%nat at 1 by lia.
  rewrite waitForTable_loop_ticks by done.
  reflexivity.
Qed.

(** C9, amended: [Setup] returns the error of a refused create-table
    request without a describe request. After an accepted one it makes
    one describe request for each tick received and none otherwise: with
    [n] ticks received first, it returns nil at the first describe
    request answered ["ACTIVE"], and the error of the first describe
    request that fails, when all earlier requests were answered with
    another status; and [ErrTimeout] when the deadline is received after
    the [n] ticks and all [n] requests were answered with another
    status. The number of describe requests made is the number of ticks
    received until then. *)
Theorem Setup_polls_until_active_or_deadline
    (tableName : string) (n fuel : nat) :
  (forall i, (i < n)%nat -> select_receive i = ticker_C) ->
  (n < fuel)%nat ->
  (forall err,
     CreateTable (Setup_input tableName) = Err err ->
     Setup fuel tableName = Some (Err err, 0%nat))
  /\ (CreateTable (Setup_input tableName) = Ok tt ->
      (forall k, (k < n)%nat ->
         (forall i, (i < k)%nat ->
            not_yet_active (DescribeTable i tableName)) ->
         (DescribeTable k tableName = Ok "ACTIVE" ->
          Setup fuel tableName = Some (Ok tt, S k))
         /\ (forall err,
               DescribeTable k tableName = Err err ->
               Setup fuel tableName = Some (Err err, S k)))
      /\ (select_receive n = timeout_chan ->
          (forall i, (i < n)%nat ->
             not_yet_active (DescribeTable i tableName)) ->
          Setup fuel tableName = Some (Err ErrTimeout, n))).
Proof.
  intros Hticks Hfuel. split.
  - intros err Hcreate. unfold Setup. by rewrite Hcreate.
  - intros Hcreate. unfold Setup. rewrite Hcreate. split.
    + intros k Hk Hearlier.
      rewrite (waitForTable_upto tableName k fuel); [|by auto with lia..].
      rewrite (Hticks k Hk). split.
      * intros ->. by destruct (decide _).
      * by intros err ->.
    + intros Hdeadline Hall.
      rewrite (waitForTable_upto tableName n fuel); [|done..].
      by rewrite Hdeadline.
Qed.

End Setup_facts.

Module Setup_runs.
Import Ref_setup.

(** C9 as stated fails: the create-table request is accepted, the first
    two describe requests find the table being created, the third is
    answered with an error, as every later one would be. The status
    never reads ["ACTIVE"] and the deadline is received after thirty
    ticks; [Setup] returns the error of the third request after three
    requests, not [ErrTimeout]. *)
Lemma Setup_describe_error :
  (fun k => DescribeTable (TableAPI := failing_from 2) k "credential-store")
    <$> seq 0 30
  = [Ok "CREATING"; Ok "CREATING"]
    ++ replicate 28 (Err (AwsErr "ResourceNotFoundException"))
  /\ select_receive (Scheduler := deadline_after 30) <$> seq 0 31
     = replicate 30 ticker_C ++ [timeout_chan]
  /\ Setup (api := failing_from 2) (scheduler := deadline_after 30)
       31 "credential-store"
     = Some (Err (AwsErr "ResourceNotFoundException"), 3%nat)
  /\ Err (A := unit) (AwsErr "ResourceNotFoundException") ≠ Err ErrTimeout.
Proof.
  do 3 (split; [vm_compute; reflexivity|]). discriminate.
Qed.

(** Thirty ticks before the deadline: a table active at the third
    describe request, a table that fails at the third, a table that is
    never active, and a refused create-table request. *)
Lemma Setup_polls_until_active_or_deadline_witness :
  Setup (api := active_from 2) (scheduler := deadline_after 30)
    31 "credential-store" = Some (Ok tt, 3%nat)
  /\ Setup (api := failing_from 2) (scheduler := deadline_after 30)
       31 "credential-store"
     = Some (Err (AwsErr "ResourceNotFoundException"), 3%nat)
  /\ Setup (api := active_from 30) (scheduler := deadline_after 30)
       31 "credential-store" = Some (Err ErrTimeout, 30%nat)
  /\ Setup (api := refusing) (scheduler := deadline_after 30)
       31 "credential-store"
     = Some (Err (AwsErr "ResourceInUseException"), 0%nat).
Proof.
  assert (forall i, (i < 30)%nat ->
            select_receive (Scheduler := deadline_after 30) i = ticker_C)
    as Hticks.
  { intros i Hi. simpl. destruct (decide (i < 30)%nat); [done|lia]. }
  assert (forall (m k : nat), (k < m)%nat ->
            not_yet_active
              (DescribeTable (TableAPI := active_from m) k "credential-store"))
    as Hactive.
  { intros m k Hk. exists "CREATING". simpl.
    destruct (decide (m <= k)%nat); [lia|done]. }
  assert (forall (m k : nat), (k < m)%nat ->
            not_yet_active
              (DescribeTable (TableAPI := failing_from m) k "credential-store"))
    as Hfailing.
  { intros m k Hk. exists "CREATING". simpl.
    destruct (decide (m <= k)%nat); [lia|done]. }
  split; [|split; [|split]].
  - destruct (Setup_polls_until_active_or_deadline
                (api := active_from 2) (scheduler := deadline_after 30)
                "credential-store" 30 31 Hticks ltac:(lia)) as [_ Haccepted].
    destruct (Haccepted eq_refl) as [Hpoll _].
    destruct (Hpoll 2%nat ltac:(lia) (Hactive 2%nat)) as [Hok _].
    exact (Hok eq_refl).
  - destruct (Setup_polls_until_active_or_deadline
                (api := failing_from 2) (scheduler := deadline_after 30)
                "credential-store" 30 31 Hticks ltac:(lia)) as [_ Haccepted].
    destruct (Haccepted eq_refl) as [Hpoll _].
    destruct (Hpoll 2%nat ltac:(lia) (Hfailing 2%nat)) as [_ Herr].
    exact (Herr _ eq_refl).
  - destruct (Setup_polls_until_active_or_deadline
                (api := active_from 30) (scheduler := deadline_after 30)
                "credential-store" 30 31 Hticks ltac:(lia)) as [_ Haccepted].
    destruct (Haccepted eq_refl) as [_ Hdeadline].
    exact (Hdeadline eq_refl (Hactive 30%nat)).
  - destruct (Setup_polls_until_active_or_deadline
                (api := refusing) (scheduler := deadline_after 30)
                "credential-store" 30 31 Hticks ltac:(lia)) as [Hrefused _].
    exact (Hrefused _ eq_refl).
Defined.

End Setup_runs.
